(** * zod-resolve: flattening a Zod schema into a path -> sub-schema record

    A shallow embedding of [src/flatten.ts] and [src/resolve.ts].

    Schemas are JavaScript objects, so they live in a heap and are named by
    their address: two schemas are "the same object" exactly when their
    addresses are equal.  [z.union] allocates a new object.  The schema graph
    is whatever the heap holds, cycles included, hence the recursion of
    [flattenSchema] is bounded by an explicit stack depth. *)

From Stdlib Require Import List String Ascii Bool Arith Lia DecimalString.
From Stdlib Require Import Relations DecimalNat.
Import ListNotations.
Local Open Scope string_scope.
Local Open Scope list_scope.

(** ** Schema objects *)

Definition addr := nat.

(** The classes of [zod/v4] that the code tests with [instanceof], and four
    of the classes it does not test for (any other class behaves the same). *)
Inductive ZodType : Type :=
| ZodString
| ZodNumber
| ZodBoolean
| ZodLiteral (value : string)
| ZodOptional (innerType : addr)
| ZodNullable (innerType : addr)
| ZodDefault (innerType : addr)
| ZodArray (element : addr)
| ZodTuple (items : list addr)
| ZodObject (shape : list (string * addr))
| ZodUnion (options : list addr).

Definition heap := list ZodType.

(** The objects a schema refers to directly. *)
Definition children (d : ZodType) : list addr :=
  match d with
  | ZodOptional i | ZodNullable i | ZodDefault i => [i]
  | ZodArray e => [e]
  | ZodTuple items => items
  | ZodObject shape => map snd shape
  | ZodUnion options => options
  | _ => []
  end.

(** ** Records: [Record<string, core.$ZodType>]

    Own properties in insertion order, which is the order [Object.entries]
    enumerates them in.  (An engine lists canonical array-index keys such as
    ["0"] first; that can only permute the entries of a record, and which
    schemas a key ends up with does not depend on it.) *)

Definition Record := list (string * addr).

Fixpoint own (key : string) (r : Record) : option addr :=
  match r with
  | [] => None
  | (k, v) :: r' => if String.eqb k key then Some v else own key r'
  end.

(** [acc[key] = v]: overwrite in place, or add a new last property. *)
Fixpoint assign (key : string) (v : addr) (r : Record) : Record :=
  match r with
  | [] => [(key, v)]
  | (k, x) :: r' =>
      if String.eqb k key then (k, v) :: r' else (k, x) :: assign key v r'
  end.

Definition keys (r : Record) : list string := map fst r.

(** Every record of the program is created by the literal [{}], whose
    prototype is [Object.prototype]: [key in acc] and [acc[key]] also see
    the members inherited from it. *)
Definition ObjectPrototype : list string :=
  [ "constructor"; "__defineGetter__"; "__defineSetter__"; "hasOwnProperty";
    "__lookupGetter__"; "__lookupSetter__"; "isPrototypeOf";
    "propertyIsEnumerable"; "toString"; "valueOf"; "__proto__";
    "toLocaleString" ].

Definition inherited (key : string) : bool :=
  existsb (String.eqb key) ObjectPrototype.

(** ** Computations

    A call either returns, or needs a deeper stack than it was given, or
    reaches the one point where the code hands a member of
    [Object.prototype] to [z.union] as if it were a schema; what happens then
    is decided inside zod, and the embedding stops there. *)
Inductive Outcome (A : Type) : Type :=
| Done (x : A)
| Overflow
| Inherited (key : string).
Arguments Done {A} x.
Arguments Overflow {A}.
Arguments Inherited {A} key.

Definition M (A : Type) : Type := heap -> Outcome (A * heap).

Definition ret {A} (x : A) : M A := fun h => Done (x, h).

Definition bind {A B} (m : M A) (f : A -> M B) : M B :=
  fun h =>
    match m h with
    | Done (x, h') => f x h'
    | Overflow => Overflow
    | Inherited key => Inherited key
    end.

Notation "x <- m ;; k" := (bind m (fun x => k))
  (at level 61, m at next level, right associativity).

Definition overflow {A} : M A := fun _ => Overflow.
Definition stop {A} (key : string) : M A := fun _ => Inherited key.

(** Reading an object; an address outside the heap is no schema at all. *)
Definition deref (a : addr) : M (option ZodType) :=
  fun h => Done (nth_error h a, h).

(** [z.union(options)]: a new schema object. *)
Definition z_union (options : list addr) : M addr :=
  fun h => Done (List.length h, h ++ [ZodUnion options]).

(** [Array.prototype.reduce] and [Array.prototype.map], left to right. *)
Fixpoint reduce {A B} (f : B -> A -> M B) (l : list A) (init : B) : M B :=
  match l with
  | [] => ret init
  | x :: l' => acc <- f init x ;; reduce f l' acc
  end.

Fixpoint map_from {A B} (index : nat) (f : A -> nat -> M B) (l : list A)
  : M (list B) :=
  match l with
  | [] => ret []
  | x :: l' =>
      y <- f x index ;; ys <- map_from (S index) f l' ;; ret (y :: ys)
  end.

Definition array_map {A B} (f : A -> nat -> M B) (l : list A) : M (list B) :=
  map_from 0 f l.

(** ** [flatten.ts] *)

(** The callback of the inner [reduce] of [mergeSchemas]. *)
Definition mergeEntry (acc : Record) (entry : string * addr) : M Record :=
  let '(key, value) := entry in
  match own key acc with
  | Some current =>
      d <- deref current ;;
      match d with
      | Some (ZodUnion options) =>
          u <- z_union (options ++ [value]) ;; ret (assign key u acc)
      | _ =>
          u <- z_union [current; value] ;; ret (assign key u acc)
      end
  | None =>
      if inherited key then stop key else ret (assign key value acc)
  end.

Definition mergeSchemas (schemas : list Record) : M Record :=
  reduce (fun acc schema => reduce mergeEntry schema acc) schemas [].

Fixpoint unwrapSchema (fuel : nat) (schema : addr) : M addr :=
  match fuel with
  | 0 => overflow
  | S fuel' =>
      d <- deref schema ;;
      match d with
      | Some (ZodOptional inner) | Some (ZodDefault inner)
      | Some (ZodNullable inner) => unwrapSchema fuel' inner
      | _ => ret schema
      end
  end.

(** Template literal [`${index}`]. *)
Definition decimal (index : nat) : string :=
  NilEmpty.string_of_uint (Nat.to_uint index).

Section Rules.

(** The recursive calls of the four rules go to [flattenSchema]. *)
Variable flattenSchema : addr -> string -> M Record.

Definition flattenUnionSchema (schema : addr) (prefix : string) : M Record :=
  d <- deref schema ;;
  match d with
  | Some (ZodUnion options) =>
      maps <- array_map (fun option _ => flattenSchema option prefix) options ;;
      mergeSchemas maps
  | _ => ret []
  end.

Definition flattenObjectSchema (schema : addr) (prefix : string) : M Record :=
  d <- deref schema ;;
  match d with
  | Some (ZodObject shape) =>
      maps <- array_map (fun '(key, value) _ =>
                let newKey :=
                  if String.eqb prefix "" then key
                  else (prefix ++ "." ++ key)%string in
                sub <- flattenSchema value newKey ;;
                mergeSchemas [[(newKey, value)]; sub]) shape ;;
      mergeSchemas maps
  | _ => ret []
  end.

Definition flattenArraySchema (schema : addr) (prefix : string) : M Record :=
  d <- deref schema ;;
  match d with
  | Some (ZodArray element) =>
      let newPrefix := (prefix ++ "[]")%string in
      sub <- flattenSchema element newPrefix ;;
      mergeSchemas [[(newPrefix, element)]; sub]
  | _ => ret []
  end.

Definition flattenTupleSchema (schema : addr) (prefix : string) : M Record :=
  d <- deref schema ;;
  match d with
  | Some (ZodTuple elements) =>
      maps <- array_map (fun element index =>
                let newPrefix := (prefix ++ "[" ++ decimal index ++ "]")%string in
                sub <- flattenSchema element newPrefix ;;
                mergeSchemas [[(newPrefix, element)]; sub]) elements ;;
      mergeSchemas maps
  | _ => ret []
  end.

End Rules.

(** [fuel] is the depth of stack left for the mutual recursion. *)
Fixpoint flattenSchema (fuel : nat) (schema : addr) (prefix : string)
  : M Record :=
  match fuel with
  | 0 => overflow
  | S fuel' =>
      unwraped <- unwrapSchema fuel' schema ;;
      a <- flattenArraySchema (flattenSchema fuel') unwraped prefix ;;
      t <- flattenTupleSchema (flattenSchema fuel') unwraped prefix ;;
      o <- flattenObjectSchema (flattenSchema fuel') unwraped prefix ;;
      u <- flattenUnionSchema (flattenSchema fuel') unwraped prefix ;;
      mergeSchemas [a; t; o; u]
  end.

Definition flatten (fuel : nat) (schema : addr) : M Record :=
  flattenSchema fuel schema "".

(** ** [resolve.ts] *)

(** What the property read [flat[key]] evaluates to. *)
Inductive JsValue : Type :=
| JsUndefined
| JsSchema (a : addr)
| JsInherited (key : string).

Definition get (r : Record) (key : string) : JsValue :=
  match own key r with
  | Some a => JsSchema a
  | None => if inherited key then JsInherited key else JsUndefined
  end.

Definition resolve (fuel : nat) (schema : addr) (key : string) : M JsValue :=
  flat <- flatten fuel schema ;;
  ret (get flat key).

(** ** Vocabulary of the statements *)

(** The heap only grows, at its end. *)
Definition extends (h h' : heap) : Prop := exists e, h' = h ++ e.

(** A key that can be stored without meeting [Object.prototype]. *)
Definition plain (key : string) : Prop := inherited key = false.

Definition tidy (r : Record) : Prop := NoDup (keys r) /\ Forall plain (keys r).

(** The options a value contributes when it is the accumulated one. *)
Definition splice (h : heap) (v : addr) : list addr :=
  match nth_error h v with
  | Some (ZodUnion options) => options
  | _ => [v]
  end.

(** The values the entries hold for a key, in order. *)
Definition values_at (key : string) (entries : list (string * addr))
  : list addr :=
  map snd (filter (fun e => String.eqb (fst e) key) entries).



(** Does the union at [v] have a union among its options? *)
Definition is_union (h : heap) (v : addr) : bool :=
  match nth_error h v with Some (ZodUnion _) => true | _ => false end.



(** What a recursive call is known to do. *)
Definition sound (rec : addr -> string -> M Record) : Prop :=
  forall a p h r h', rec a p h = Done (r, h') -> extends h h' /\ tidy r.

(** The rule that applies to an unwrapped schema. *)
Definition dispatch (rec : addr -> string -> M Record) (u : addr)
  (prefix : string) : M Record :=
  d <- deref u ;;
  match d with
  | Some (ZodArray _) => flattenArraySchema rec u prefix
  | Some (ZodTuple _) => flattenTupleSchema rec u prefix
  | Some (ZodObject _) => flattenObjectSchema rec u prefix
  | Some (ZodUnion _) => flattenUnionSchema rec u prefix
  | _ => ret []
  end.

(** Every result of [m] is a result of [m']. *)
Definition refines {A} (m m' : M A) : Prop :=
  forall h x, m h = Done x -> m' h = Done x.

(** [k] continues the path [q] with a field access or a bracket. *)
Definition below (q k : string) : Prop :=
  exists rest, k = (q ++ "." ++ rest)%string \/ k = (q ++ "[" ++ rest)%string.

(** A field name without the two characters that continue a path. *)
Fixpoint simple (name : string) : bool :=
  match name with
  | EmptyString => true
  | String c name' =>
      negb (Ascii.eqb c ".") && negb (Ascii.eqb c "[") && simple name'
  end.

(** The path of a field of an object reached at [prefix]. *)
Definition field_path (prefix key : string) : string :=
  if String.eqb prefix "" then key else (prefix ++ "." ++ key)%string.

(** The schema an optional, nullable or default schema decorates. *)
Definition wrapper_inner (d : option ZodType) : option addr :=
  match d with
  | Some (ZodOptional inner) | Some (ZodNullable inner)
  | Some (ZodDefault inner) => Some inner
  | _ => None
  end.

(** [wraps h k w u]: [w] is [u] under [k] layers of such decoration. *)
Inductive wraps (h : heap) : nat -> addr -> addr -> Prop :=
| wraps_none u : wraps h 0 u u
| wraps_layer k w inner u :
    wrapper_inner (nth_error h w) = Some inner ->
    wraps h k inner u ->
    wraps h (S k) w u.


(** The schema graph: [b] is referred to by the schema at [a]. *)
Definition child (h : heap) (a b : addr) : Prop :=
  exists t, nth_error h a = Some t /\ In b (children t).

(** [a] reaches a schema that is reachable from itself. *)
Definition cyclic (h : heap) (a : addr) : Prop :=
  exists c, clos_refl_trans addr (child h) a c /\ clos_trans addr (child h) c c.

(** Every chain of references from [a] stays inside the heap and ends
    within [d] schemas; a finite graph is acyclic below [a] exactly when
    some [d] bounds it. *)
Fixpoint bounded (d : nat) (h : heap) (a : addr) : bool :=
  match d with
  | 0 => false
  | S d' =>
      match nth_error h a with
      | Some t => forallb (bounded d' h) (children t)
      | None => false
      end
  end.

(** [chain h a l]: [l] lists successive schemas met when following
    references from [a]. *)
Fixpoint chain (h : heap) (a : addr) (l : list addr) : Prop :=
  match l with
  | [] => True
  | b :: l' => child h a b /\ chain h b l'
  end.

(** No object of the heap names a field after a member of
    [Object.prototype]. *)
Definition names_plain (h : heap) : Prop :=
  Forall (fun t => match t with
                   | ZodObject shape => Forall plain (map fst shape)
                   | _ => True
                   end) h.

(** Every schema of the heap refers to schemas of the heap. *)
Definition closed (h : heap) : Prop :=
  forall a t, nth_error h a = Some t ->
    Forall (fun b => b < List.length h) (children t).

(** Two runs of the traversal over the same schema graph of [n0] objects, the
    second one on a heap of at least [n1] objects: a value is the same object
    of the graph in both runs, or in each run a union created by that run,
    and then the options of the two unions correspond in the same way. *)
#[warnings="-register-all"]
Inductive same_shape (n0 n1 : nat) (H1 H2 : heap) : addr -> addr -> Prop :=
| same_object v :
    v < n0 -> same_shape n0 n1 H1 H2 v v
| same_union v1 v2 o1 o2 :
    n0 <= v1 -> n1 <= v2 ->
    nth_error H1 v1 = Some (ZodUnion o1) ->
    nth_error H2 v2 = Some (ZodUnion o2) ->
    Forall2 (same_shape n0 n1 H1 H2) o1 o2 ->
    same_shape n0 n1 H1 H2 v1 v2.

Definition alike (n0 n1 : nat) (H1 H2 : heap) (r1 r2 : Record) : Prop :=
  Forall2 (fun e1 e2 =>
             fst e1 = fst e2 /\ same_shape n0 n1 H1 H2 (snd e1) (snd e2))
          r1 r2.

(** A computation that, started on any two such heaps, returns alike
    records. *)
Definition stable (h0 : heap) (n1 : nat) (m : M Record) : Prop :=
  forall H1 H2 r1 H1',
    extends h0 H1 -> extends h0 H2 -> n1 <= List.length H2 ->
    m H1 = Done (r1, H1') ->
    exists r2 H2',
      m H2 = Done (r2, H2') /\ extends H1 H1' /\ extends H2 H2' /\
      alike (List.length h0) n1 H1' H2' r1 r2.



(** [h'] is [h] followed by new objects that are all unions. *)
Definition grows (h h' : heap) : Prop :=
  exists e, h' = h ++ e /\ Forall (fun t => exists options, t = ZodUnion options) e.

(** A schema that refers to no other schema (an address outside the heap
    is no schema at all). *)
Definition childless (h : heap) (a : addr) : Prop :=
  match nth_error h a with
  | Some t => children t = []
  | None => True
  end.

(** Arrays of arrays: [els] lists the element of [a], the element of that
    element, and so on down to a schema without children. *)
Fixpoint array_tower (h : heap) (a : addr) (els : list addr) : Prop :=
  match els with
  | [] => childless h a
  | e :: els' => nth_error h a = Some (ZodArray e) /\ array_tower h e els'
  end.

Fixpoint tower_paths (p : string) (els : list addr) : Record :=
  match els with
  | [] => []
  | e :: els' => ((p ++ "[]")%string, e) :: tower_paths (p ++ "[]") els'
  end.

(** The path of the item [index] of a tuple reached at [prefix]. *)
Definition tuple_path (prefix : string) (index : nat) : string :=
  (prefix ++ "[" ++ decimal index ++ "]")%string.

(** The items of a tuple with their indices, counted from [i]. *)
Fixpoint indexed_from (i : nat) (items : list addr) : list (nat * addr) :=
  match items with
  | [] => []
  | x :: items' => (i, x) :: indexed_from (S i) items'
  end.

(** The record a rule builds for one child: the entry of the child at its
    path, and entries that lie below it. *)
Definition entry_at (q : string) (v : addr) (m : Record) : Prop :=
  exists sub, m = (q, v) :: sub /\ Forall (below q) (keys sub).

(** A string without the character [c]. *)
Fixpoint lacks (c : ascii) (s : string) : bool :=
  match s with
  | EmptyString => true
  | String x s' => negb (Ascii.eqb x c) && lacks c s'
  end.

(** ** Schemas used as examples *)

(** [z.union([z.object({x: z.string()}),
             z.union([z.object({x: z.number()}), z.object({x: z.boolean()})])])],
    the outer union at address 7. *)
Definition nested : heap :=
  [ ZodString; ZodObject [("x", 0)];
    ZodNumber; ZodObject [("x", 2)];
    ZodBoolean; ZodObject [("x", 4)];
    ZodUnion [3; 5]; ZodUnion [1; 6] ].

(** [z.object({name: z.string(), posts: z.array(z.object({title: z.string()}))})],
    the root at address 4; the [title] field's string is the object at 1. *)
Definition blog : heap :=
  [ ZodString; ZodString; ZodObject [("title", 1)]; ZodArray 2;
    ZodObject [("name", 0); ("posts", 3)] ].

(** [z.union([z.object({type: z.literal("car"), doors: z.number()}),
             z.object({type: z.literal("bike"), gears: z.number()})])],
    the root at address 6. *)
Definition vehicles : heap :=
  [ ZodLiteral "car"; ZodNumber; ZodObject [("type", 0); ("doors", 1)];
    ZodLiteral "bike"; ZodNumber; ZodObject [("type", 3); ("gears", 4)];
    ZodUnion [2; 5] ].

(** [z.array(z.object({a: z.string()}).nullable().optional())]: the object at
    1, the wrappers at 2 and 3, the array at 4. *)
Definition wrapped : heap :=
  [ ZodString; ZodObject [("a", 0)]; ZodNullable 1; ZodOptional 2; ZodArray 3 ].


(** [const Node = z.object({ get self() { return Node } })]. *)
Definition selfish : heap := [ ZodObject [("self", 0)] ].

(** [z.array(z.array(z.array(z.number())))], the outer array at address 3. *)
Definition cube : heap := [ ZodNumber; ZodArray 0; ZodArray 1; ZodArray 2 ].

(** [z.tuple([z.string(), z.object({a: z.number()})])], the tuple at 3. *)
Definition pair : heap :=
  [ ZodString; ZodNumber; ZodObject [("a", 1)]; ZodTuple [0; 2] ].
(** * Properties *)

(** ** Computations *)

Lemma bind_Done {A B} (m : M A) (f : A -> M B) h y h2 :
  bind m f h = Done (y, h2) ->
  exists x h1, m h = Done (x, h1) /\ f x h1 = Done (y, h2).
Proof.
  unfold bind. destruct (m h) as [[x h1]| |]; try discriminate.
  intros H. now exists x, h1.
Qed.

Lemma bind_step {A B} (m : M A) (f : A -> M B) h x h1 :
  m h = Done (x, h1) -> bind m f h = f x h1.
Proof. unfold bind. now intros ->. Qed.

Ltac inv_bind H :=
  let x := fresh "x" in
  let h := fresh "h" in
  let H1 := fresh H in
  apply bind_Done in H; destruct H as (x & h & H1 & H).

Tactic Notation "bind_inv" hyp(H) "as" ident(x) ident(h) ident(H1) :=
  apply bind_Done in H; destruct H as (x & h & H1 & H).

Lemma extends_refl h : extends h h.
Proof. exists []. now rewrite app_nil_r. Qed.

Lemma extends_trans h1 h2 h3 : extends h1 h2 -> extends h2 h3 -> extends h1 h3.
Proof. intros [e1 ->] [e2 ->]. exists (e1 ++ e2). now rewrite app_assoc. Qed.

Lemma extends_length h h' : extends h h' -> List.length h <= List.length h'.
Proof. intros [e ->]. rewrite length_app. lia. Qed.

Lemma extends_nth h h' a :
  extends h h' -> a < List.length h -> nth_error h' a = nth_error h a.
Proof. intros [e ->] Ha. now apply nth_error_app1. Qed.

Lemma extends_app h e : extends h (h ++ e).
Proof. now exists e. Qed.

Create HintDb zod.
#[local] Hint Resolve extends_refl extends_trans extends_app : zod.

(** ** Records *)

Lemma eqb_refl' (s : string) : String.eqb s s = true.
Proof. apply String.eqb_refl. Qed.

Lemma own_In key r v : own key r = Some v -> In (key, v) r.
Proof.
  induction r as [|[k x] r IH]; simpl; try discriminate.
  destruct (String.eqb_spec k key) as [->|Hk].
  - intros [= ->]. now left.
  - intros H. right. auto.
Qed.

Lemma own_None key r : own key r = None <-> ~ In key (keys r).
Proof.
  induction r as [|[k x] r IH]; simpl.
  - tauto.
  - destruct (String.eqb_spec k key) as [->|Hk].
    + split; [discriminate | intros H; exfalso; apply H; now left].
    + rewrite IH. tauto.
Qed.

Lemma own_Some_keys key r v : own key r = Some v -> In key (keys r).
Proof. intros H. apply own_In in H. now apply (in_map fst) in H. Qed.

Lemma own_app key r1 r2 :
  own key (r1 ++ r2) =
  match own key r1 with Some v => Some v | None => own key r2 end.
Proof.
  induction r1 as [|[k x] r1 IH]; simpl; auto.
  now destruct (String.eqb k key).
Qed.

Lemma assign_absent key v r : own key r = None -> assign key v r = r ++ [(key, v)].
Proof.
  induction r as [|[k x] r IH]; simpl; auto.
  destruct (String.eqb k key); [discriminate|]. intros H. now rewrite IH.
Qed.

Lemma keys_assign_present key v r :
  own key r <> None -> keys (assign key v r) = keys r.
Proof.
  induction r as [|[k x] r IH]; simpl; [congruence|].
  destruct (String.eqb k key); simpl; auto. intros H. now rewrite IH.
Qed.

Lemma own_assign key v r k :
  own k (assign key v r) = if String.eqb key k then Some v else own k r.
Proof.
  induction r as [|[k0 x] r IH]; simpl.
  - destruct (String.eqb_spec key k); auto.
  - destruct (String.eqb_spec k0 key) as [->|Hne]; simpl.
    + destruct (String.eqb_spec key k); auto.
    + rewrite IH. destruct (String.eqb_spec k0 k) as [->|]; auto.
      destruct (String.eqb_spec key k); congruence.
Qed.

Lemma keys_assign key v r :
  keys (assign key v r) =
  match own key r with Some _ => keys r | None => keys r ++ [key] end.
Proof.
  destruct (own key r) eqn:E.
  - apply keys_assign_present. congruence.
  - rewrite assign_absent by auto. unfold keys. now rewrite map_app.
Qed.

Lemma tidy_nil : tidy [].
Proof. split; constructor. Qed.

(** ** The union merger *)

Lemma mergeEntry_eq acc key value h :
  mergeEntry acc (key, value) h =
  match own key acc with
  | Some current =>
      Done (assign key (List.length h) acc,
            h ++ [ZodUnion (splice h current ++ [value])])
  | None =>
      if inherited key then Inherited key else Done (acc ++ [(key, value)], h)
  end.
Proof.
  unfold mergeEntry, splice. destruct (own key acc) as [current|] eqn:E.
  - unfold bind, deref, z_union, ret.
    destruct (nth_error h current) as [[]|]; reflexivity.
  - destruct (inherited key); [reflexivity|].
    unfold ret. now rewrite assign_absent.
Qed.

Arguments mergeEntry : simpl never.

Lemma reduce_app {A B} (f : B -> A -> M B) l1 l2 init h :
  reduce f (l1 ++ l2) init h = bind (reduce f l1 init) (reduce f l2) h.
Proof.
  revert init h. induction l1 as [|x l1 IH]; intros init h; simpl.
  - reflexivity.
  - unfold bind. destruct (f init x h) as [[acc h1]| |]; auto.
Qed.

(** The two nested [reduce]s run through the entries of all the maps. *)
Lemma mergeSchemas_concat schemas acc h :
  reduce (fun acc schema => reduce mergeEntry schema acc) schemas acc h =
  reduce mergeEntry (List.concat schemas) acc h.
Proof.
  revert acc h. induction schemas as [|m ms IH]; intros acc h; simpl.
  - reflexivity.
  - rewrite reduce_app. unfold bind.
    destruct (reduce mergeEntry m acc h) as [[acc' h']| |]; auto.
Qed.

Lemma reduce_mergeEntry_keys entries : forall acc h r h',
  reduce mergeEntry entries acc h = Done (r, h') ->
  extends h h' /\
  (forall k, In k (keys r) <-> In k (keys acc) \/ In k (keys entries)) /\
  (tidy acc -> tidy r).
Proof.
  induction entries as [|[key value] entries IH]; intros acc h r h' H; simpl in H.
  - injection H as <- <-. split; [auto with zod|]. split; [|auto].
    intros k. simpl. tauto.
  - inv_bind H. rewrite mergeEntry_eq in H0.
    destruct (own key acc) as [current|] eqn:E.
    + injection H0 as <- <-. apply IH in H as (He & Hk & Ht).
      split; [eauto with zod|]. split.
      * intros k. rewrite Hk, keys_assign, E. simpl.
        apply own_Some_keys in E. intuition (subst; auto).
      * intros T. apply Ht. unfold tidy. now rewrite keys_assign, E.
    + destruct (inherited key) eqn:Ei; [discriminate|].
      injection H0 as <- <-. apply IH in H as (He & Hk & Ht).
      split; [auto|]. split.
      * intros k. rewrite Hk. unfold keys. rewrite map_app, in_app_iff.
        simpl. tauto.
      * intros [T1 T2]. apply Ht. unfold tidy, keys. rewrite map_app. simpl.
        split.
        -- apply NoDup_app; auto.
           ++ repeat constructor. simpl. tauto.
           ++ intros k Hin [<-|[]]. now apply own_None in E.
        -- apply Forall_app. split; auto.
Qed.

Lemma mergeSchemas_keys schemas h r h' :
  mergeSchemas schemas h = Done (r, h') ->
  extends h h' /\
  (forall k, In k (keys r) <-> exists m, In m schemas /\ In k (keys m)) /\
  tidy r.
Proof.
  unfold mergeSchemas. rewrite mergeSchemas_concat. intros H.
  apply reduce_mergeEntry_keys in H as (He & Hk & Ht).
  split; auto. split; [|apply Ht, tidy_nil].
  intros k. rewrite Hk. simpl. unfold keys. rewrite concat_map, in_concat.
  split.
  - intros [[]|(l & Hl & Hin)]. apply in_map_iff in Hl as (m & <- & Hm). eauto.
  - intros (m & Hm & Hin). right. exists (map fst m). split; auto.
    now apply in_map.
Qed.

(** Entries with new, distinct, plain keys are appended as they are. *)
Lemma reduce_mergeEntry_fresh m : forall acc h,
  NoDup (keys acc ++ keys m) -> Forall plain (keys m) ->
  reduce mergeEntry m acc h = Done (acc ++ m, h).
Proof.
  induction m as [|[key value] m IH]; intros acc h Hnd Hp; simpl.
  - unfold ret. now rewrite app_nil_r.
  - simpl in Hnd, Hp. inversion Hp as [|? ? Hkey Hp']; subst.
    assert (E : own key acc = None).
    { apply own_None. intros Hin. apply NoDup_remove_2 in Hnd.
      apply Hnd, in_app_iff. now left. }
    erewrite bind_step by (rewrite mergeEntry_eq, E, Hkey; reflexivity).
    rewrite IH; auto.
    + now rewrite <- app_assoc.
    + unfold keys in *. rewrite map_app. simpl. now rewrite <- app_assoc.
Qed.

Lemma values_at_app key l1 l2 :
  values_at key (l1 ++ l2) = values_at key l1 ++ values_at key l2.
Proof. unfold values_at. now rewrite filter_app, map_app. Qed.

Lemma values_at_absent key m : ~ In key (keys m) -> values_at key m = [].
Proof.
  induction m as [|[k x] m IH]; simpl; auto. intros H.
  unfold values_at in *. simpl.
  destruct (String.eqb_spec k key) as [->|]; [tauto|]. apply IH. tauto.
Qed.







Lemma reduce_mergeEntry_total entries : forall acc h,
  Forall (fun e => plain (fst e)) entries ->
  exists r h', reduce mergeEntry entries acc h = Done (r, h').
Proof.
  induction entries as [|[k v] entries IH]; intros acc h Hp; simpl.
  - now exists acc, h.
  - inversion Hp as [|? ? Hk Hp']; subst. simpl in Hk.
    unfold bind. rewrite mergeEntry_eq, Hk.
    destruct (own k acc); apply IH; auto.
Qed.

Lemma mergeSchemas_total maps h :
  Forall (fun m => Forall plain (keys m)) maps ->
  exists r h', mergeSchemas maps h = Done (r, h').
Proof.
  intros Hp. unfold mergeSchemas. rewrite mergeSchemas_concat.
  apply reduce_mergeEntry_total. apply Forall_concat.
  eapply Forall_impl; [|apply Hp]. intros m Hm.
  unfold keys in Hm. now rewrite Forall_map in Hm.
Qed.



Lemma mergeSchemas_only ms r h :
  List.concat ms = r -> tidy r -> mergeSchemas ms h = Done (r, h).
Proof.
  intros <- [Hnd Hp]. unfold mergeSchemas. rewrite mergeSchemas_concat.
  apply (reduce_mergeEntry_fresh _ []); auto.
Qed.

(** ** The traversal *)

Lemma map_from_Done {A B} (P : B -> Prop) (f : A -> nat -> M B) l :
  forall i h ys h',
  map_from i f l h = Done (ys, h') ->
  (forall x j h1 y h2,
     In x l -> extends h h1 -> f x j h1 = Done (y, h2) -> extends h1 h2 /\ P y) ->
  extends h h' /\ Forall P ys.
Proof.
  induction l as [|x l IH]; intros i h ys h' H Hf; simpl in H.
  - injection H as <- <-. auto with zod.
  - bind_inv H as y h1 Hy. bind_inv H as ys' h2 Hys. injection H as <- <-.
    destruct (Hf x i h y h1) as [E1 Py]; simpl; auto with zod.
    apply IH in Hys as [E2 Pys].
    + split; eauto with zod.
    + intros x' j h3 y' h4 Hin He. apply Hf; simpl; eauto with zod.
Qed.

Lemma unwrapSchema_heap fuel : forall a h u h',
  unwrapSchema fuel a h = Done (u, h') -> h' = h.
Proof.
  induction fuel as [|fuel IH]; intros a h u h' H; simpl in H; [discriminate|].
  unfold bind, deref in H.
  destruct (nth_error h a) as [[]|]; try (injection H as <- <-; reflexivity);
    eapply IH; eauto.
Qed.

Section RulesSound.

Variable rec : addr -> string -> M Record.
Hypothesis rec_sound : sound rec.

Lemma child_entry_sound q v a h r h' :
  (sub <- rec a q ;; mergeSchemas [[(q, v)]; sub]) h = Done (r, h') ->
  extends h h' /\ tidy r.
Proof.
  intros H. bind_inv H as sub h1 Hs.
  apply rec_sound in Hs as [E1 _].
  apply mergeSchemas_keys in H as (E2 & _ & T). eauto with zod.
Qed.

Lemma flattenArraySchema_sound a p h r h' :
  flattenArraySchema rec a p h = Done (r, h') -> extends h h' /\ tidy r.
Proof.
  unfold flattenArraySchema, bind at 1, deref. intros H.
  destruct (nth_error h a) as [[]|];
    try (injection H as <- <-; split; [auto with zod|apply tidy_nil]).
  eapply child_entry_sound; eauto.
Qed.

Lemma flattenTupleSchema_sound a p h r h' :
  flattenTupleSchema rec a p h = Done (r, h') -> extends h h' /\ tidy r.
Proof.
  unfold flattenTupleSchema, bind at 1, deref. intros H.
  destruct (nth_error h a) as [[]|];
    try (injection H as <- <-; split; [auto with zod|apply tidy_nil]).
  bind_inv H as maps h1 Hm.
  apply (map_from_Done (fun _ => True)) in Hm as [E1 _].
  - apply mergeSchemas_keys in H as (E2 & _ & T). eauto with zod.
  - intros x j h2 y h3 _ _ Hx. apply child_entry_sound in Hx. tauto.
Qed.

Lemma flattenObjectSchema_sound a p h r h' :
  flattenObjectSchema rec a p h = Done (r, h') -> extends h h' /\ tidy r.
Proof.
  unfold flattenObjectSchema, bind at 1, deref. intros H.
  destruct (nth_error h a) as [[]|];
    try (injection H as <- <-; split; [auto with zod|apply tidy_nil]).
  bind_inv H as maps h1 Hm.
  apply (map_from_Done (fun _ => True)) in Hm as [E1 _].
  - apply mergeSchemas_keys in H as (E2 & _ & T). eauto with zod.
  - intros [key value] j h2 y h3 _ _ Hx. apply child_entry_sound in Hx. tauto.
Qed.

Lemma flattenUnionSchema_sound a p h r h' :
  flattenUnionSchema rec a p h = Done (r, h') -> extends h h' /\ tidy r.
Proof.
  unfold flattenUnionSchema, bind at 1, deref. intros H.
  destruct (nth_error h a) as [[]|];
    try (injection H as <- <-; split; [auto with zod|apply tidy_nil]).
  bind_inv H as maps h1 Hm.
  apply (map_from_Done (fun _ => True)) in Hm as [E1 _].
  - apply mergeSchemas_keys in H as (E2 & _ & T). eauto with zod.
  - intros x j h2 y h3 _ _ Hx. apply rec_sound in Hx. tauto.
Qed.

End RulesSound.

Lemma flattenSchema_sound fuel : sound (flattenSchema fuel).
Proof.
  induction fuel as [|fuel IH]; intros a p h r h' H; simpl in H; [discriminate|].
  bind_inv H as u h1 Hu. apply unwrapSchema_heap in Hu as ->.
  bind_inv H as ra h2 Ha. apply (flattenArraySchema_sound _ IH) in Ha as [E1 _].
  bind_inv H as rt h3 Ht. apply (flattenTupleSchema_sound _ IH) in Ht as [E2 _].
  bind_inv H as ro h4 Ho. apply (flattenObjectSchema_sound _ IH) in Ho as [E3 _].
  bind_inv H as ru h5 Hr. apply (flattenUnionSchema_sound _ IH) in Hr as [E4 _].
  apply mergeSchemas_keys in H as (E5 & _ & T). eauto 10 with zod.
Qed.

Lemma bind_ext {A B} (m : M A) (f g : A -> M B) h :
  (forall x h1, m h = Done (x, h1) -> f x h1 = g x h1) ->
  bind m f h = bind m g h.
Proof. unfold bind. destruct (m h) as [[x h1]| |]; auto. Qed.

Lemma bind_id_r {A} (m : M A) (k : A -> M A) h :
  (forall x h1, m h = Done (x, h1) -> k x h1 = Done (x, h1)) ->
  bind m k h = m h.
Proof.
  unfold bind. destruct (m h) as [[x h1]| |] eqn:E; auto.
Qed.

Section Skip.

Variable rec : addr -> string -> M Record.

Lemma flattenArraySchema_skip u p h :
  match nth_error h u with Some (ZodArray _) => False | _ => True end ->
  flattenArraySchema rec u p h = Done ([], h).
Proof.
  unfold flattenArraySchema, bind, deref.
  destruct (nth_error h u) as [[]|]; tauto || reflexivity.
Qed.

Lemma flattenTupleSchema_skip u p h :
  match nth_error h u with Some (ZodTuple _) => False | _ => True end ->
  flattenTupleSchema rec u p h = Done ([], h).
Proof.
  unfold flattenTupleSchema, bind, deref.
  destruct (nth_error h u) as [[]|]; tauto || reflexivity.
Qed.

Lemma flattenObjectSchema_skip u p h :
  match nth_error h u with Some (ZodObject _) => False | _ => True end ->
  flattenObjectSchema rec u p h = Done ([], h).
Proof.
  unfold flattenObjectSchema, bind, deref.
  destruct (nth_error h u) as [[]|]; tauto || reflexivity.
Qed.

Lemma flattenUnionSchema_skip u p h :
  match nth_error h u with Some (ZodUnion _) => False | _ => True end ->
  flattenUnionSchema rec u p h = Done ([], h).
Proof.
  unfold flattenUnionSchema, bind, deref.
  destruct (nth_error h u) as [[]|]; tauto || reflexivity.
Qed.

End Skip.

Ltac skip_rule Hn :=
  erewrite bind_step by
    (first [ apply flattenArraySchema_skip | apply flattenTupleSchema_skip
           | apply flattenObjectSchema_skip | apply flattenUnionSchema_skip ];
     rewrite Hn; exact I).

(** The four rules are tried one after the other, but at most one of them
    matches the unwrapped schema; the others return [{}] and the final merge
    copies the one result. *)
Lemma flattenSchema_dispatch fuel a p h :
  flattenSchema (S fuel) a p h
  = (u <- unwrapSchema fuel a ;; dispatch (flattenSchema fuel) u p) h.
Proof.
  simpl. apply bind_ext. intros u h1 _.
  pose proof (flattenSchema_sound fuel) as Hs.
  unfold dispatch. unfold bind at 5. unfold deref.
  destruct (nth_error h1 u) as [d|] eqn:Hn.
  2:{ do 4 skip_rule Hn. reflexivity. }
  assert (Hlt : u < List.length h1) by (apply nth_error_Some; congruence).
  destruct d; try (do 4 skip_rule Hn; reflexivity).
  - (* array *)
    apply bind_id_r. intros r h2 Hr.
    apply (flattenArraySchema_sound _ Hs) in Hr as [E T].
    assert (Hn2 : nth_error h2 u = Some (ZodArray element))
      by now rewrite (extends_nth h1 h2).
    do 3 skip_rule Hn2.
    apply mergeSchemas_only; auto. simpl. now rewrite app_nil_r.
  - (* tuple *)
    skip_rule Hn. apply bind_id_r. intros r h2 Hr.
    apply (flattenTupleSchema_sound _ Hs) in Hr as [E T].
    assert (Hn2 : nth_error h2 u = Some (ZodTuple items))
      by now rewrite (extends_nth h1 h2).
    do 2 skip_rule Hn2.
    apply mergeSchemas_only; auto. simpl. now rewrite app_nil_r.
  - (* object *)
    do 2 skip_rule Hn. apply bind_id_r. intros r h2 Hr.
    apply (flattenObjectSchema_sound _ Hs) in Hr as [E T].
    assert (Hn2 : nth_error h2 u = Some (ZodObject shape))
      by now rewrite (extends_nth h1 h2).
    skip_rule Hn2.
    apply mergeSchemas_only; auto. simpl. now rewrite app_nil_r.
  - (* union *)
    do 3 skip_rule Hn. apply bind_id_r. intros r h2 Hr.
    apply (flattenUnionSchema_sound _ Hs) in Hr as [E T].
    apply mergeSchemas_only; auto. simpl. now rewrite app_nil_r.
Qed.

(** ** A deeper stack changes no result *)

Lemma refines_refl {A} (m : M A) : refines m m.
Proof. intros h x H. exact H. Qed.

Lemma bind_refines {A B} (m m' : M A) (f f' : A -> M B) :
  refines m m' -> (forall x, refines (f x) (f' x)) ->
  refines (bind m f) (bind m' f').
Proof.
  intros Hm Hf h [y h2] H. bind_inv H as x h1 Hx.
  rewrite (bind_step _ _ _ _ _ (Hm _ _ Hx)). now apply Hf.
Qed.

Lemma map_from_refines {A B} (f f' : A -> nat -> M B) l :
  (forall x i, refines (f x i) (f' x i)) ->
  forall i, refines (map_from i f l) (map_from i f' l).
Proof.
  intros Hf. induction l as [|x l IH]; intros i; simpl.
  - apply refines_refl.
  - apply bind_refines; auto. intros y.
    apply bind_refines; auto. intros ys. apply refines_refl.
Qed.

#[local] Hint Resolve refines_refl : zod.

Section RulesRefine.

Variables rec rec' : addr -> string -> M Record.
Hypothesis rec_le : forall a p, refines (rec a p) (rec' a p).

Lemma flattenArraySchema_refines a p :
  refines (flattenArraySchema rec a p) (flattenArraySchema rec' a p).
Proof.
  apply bind_refines; auto with zod. intros [[]|]; auto with zod.
  apply bind_refines; auto with zod.
Qed.

Lemma flattenTupleSchema_refines a p :
  refines (flattenTupleSchema rec a p) (flattenTupleSchema rec' a p).
Proof.
  apply bind_refines; auto with zod. intros [[]|]; auto with zod.
  apply bind_refines; auto with zod.
  apply map_from_refines. intros x i. apply bind_refines; auto with zod.
Qed.

Lemma flattenObjectSchema_refines a p :
  refines (flattenObjectSchema rec a p) (flattenObjectSchema rec' a p).
Proof.
  apply bind_refines; auto with zod. intros [[]|]; auto with zod.
  apply bind_refines; auto with zod.
  apply map_from_refines. intros [key value] i.
  apply bind_refines; auto with zod.
Qed.

Lemma flattenUnionSchema_refines a p :
  refines (flattenUnionSchema rec a p) (flattenUnionSchema rec' a p).
Proof.
  apply bind_refines; auto with zod. intros [[]|]; auto with zod.
  apply bind_refines; auto with zod.
  apply map_from_refines. intros x i. auto.
Qed.

End RulesRefine.

Lemma unwrapSchema_S fuel : forall a,
  refines (unwrapSchema fuel a) (unwrapSchema (S fuel) a).
Proof.
  induction fuel as [|fuel IH]; intros a h x H; [discriminate|].
  revert h x H. change (refines (unwrapSchema (S fuel) a)
                                (unwrapSchema (S (S fuel)) a)).
  cbn [unwrapSchema]. apply bind_refines; auto with zod.
  intros [[]|]; auto with zod.
Qed.

Lemma flattenSchema_S fuel : forall a p,
  refines (flattenSchema fuel a p) (flattenSchema (S fuel) a p).
Proof.
  induction fuel as [|fuel IH]; intros a p; [intros h x H; discriminate|].
  cbn [flattenSchema].
  apply bind_refines; [apply unwrapSchema_S|]. intros u.
  apply bind_refines; [now apply flattenArraySchema_refines|]. intros ra.
  apply bind_refines; [now apply flattenTupleSchema_refines|]. intros rt.
  apply bind_refines; [now apply flattenObjectSchema_refines|]. intros ro.
  apply bind_refines; [now apply flattenUnionSchema_refines|]. intros ru.
  apply refines_refl.
Qed.

Lemma flattenSchema_fuel fuel n a p :
  refines (flattenSchema fuel a p) (flattenSchema (n + fuel) a p).
Proof.
  induction n as [|n IH]; simpl plus; [apply refines_refl|].
  intros h x H. now apply flattenSchema_S, IH.
Qed.

(** ** Paths *)

Lemma sapp_assoc (a b c : string) : ((a ++ b) ++ c = a ++ (b ++ c))%string.
Proof. induction a as [|x a IH]; simpl; congruence. Qed.

Lemma sapp_length (a b : string) :
  String.length (a ++ b) = String.length a + String.length b.
Proof. induction a as [|x a IH]; simpl; congruence. Qed.

Lemma sapp_inj_l (p a b : string) : (p ++ a = p ++ b)%string -> a = b.
Proof. induction p as [|x p IH]; simpl; [auto|]. intros [= H]. auto. Qed.

Lemma below_length q k : below q k -> String.length q < String.length k.
Proof. intros [rest [-> | ->]]; rewrite sapp_length; simpl; lia. Qed.

Lemma below_dot q s : below q (q ++ "." ++ s).
Proof. exists s. now left. Qed.

Lemma below_bracket q s : below q (q ++ "[" ++ s).
Proof. exists s. now right. Qed.

Lemma below_trans q k k' : below q k -> below k k' -> below q k'.
Proof.
  intros [r [-> | ->]] [r' [-> | ->]]; rewrite sapp_assoc; simpl.
  - exists (r ++ "." ++ r')%string. now left.
  - exists (r ++ "[" ++ r')%string. now left.
  - exists (r ++ "." ++ r')%string. now right.
  - exists (r ++ "[" ++ r')%string. now right.
Qed.

Lemma below_nonempty q k : below q k -> k <> "".
Proof. intros H ->. apply below_length in H. simpl in H. lia. Qed.

Lemma below_irrefl q : ~ below q q.
Proof. intros H. apply below_length in H. lia. Qed.

Lemma field_path_below p key : p <> "" -> below p (field_path p key).
Proof.
  intros Hp. unfold field_path.
  destruct (String.eqb_spec p ""); [tauto|]. apply below_dot.
Qed.

Lemma map_from_Forall2 {A B} (R : A -> B -> Prop) (f : A -> nat -> M B) l :
  forall i h ys h',
  map_from i f l h = Done (ys, h') ->
  (forall x j h1 y h2, In x l -> f x j h1 = Done (y, h2) -> R x y) ->
  Forall2 R l ys.
Proof.
  induction l as [|x l IH]; intros i h ys h' H Hf; simpl in H.
  - injection H as <- <-. constructor.
  - bind_inv H as y h1 Hy. bind_inv H as ys' h2 Hys. injection H as <- <-.
    constructor.
    + eapply Hf; eauto. now left.
    + eapply IH; eauto. intros. eapply Hf; eauto. now right.
Qed.

Lemma map_from_Forall {A B} (P : B -> Prop) (f : A -> nat -> M B) l :
  forall i h ys h',
  map_from i f l h = Done (ys, h') ->
  (forall x j h1 y h2, In x l -> f x j h1 = Done (y, h2) -> P y) ->
  Forall P ys.
Proof.
  intros i h ys h' H Hf.
  apply (map_from_Forall2 (fun _ y => P y)) in H;
    [|intros; eapply Hf; eauto].
  clear Hf. induction H; constructor; auto.
Qed.

(** The entry of a child and the entries below it. *)
Lemma child_entry_cons q v sub h :
  tidy sub -> plain q -> ~ In q (keys sub) ->
  mergeSchemas [[(q, v)]; sub] h = Done ((q, v) :: sub, h).
Proof.
  intros [Hnd Hp] Hq Hin. apply mergeSchemas_only.
  - simpl. now rewrite app_nil_r.
  - split; simpl; constructor; auto.
Qed.

Section RulesBelow.

Variable rec : addr -> string -> M Record.
Hypothesis rec_below : forall a q h r h',
  q <> "" -> rec a q h = Done (r, h') -> Forall (below q) (keys r).

Lemma child_entry_below p q v a h r h' :
  below p q ->
  (sub <- rec a q ;; mergeSchemas [[(q, v)]; sub]) h = Done (r, h') ->
  Forall (below p) (keys r).
Proof.
  intros Hq H. bind_inv H as sub h1 Hs.
  apply rec_below in Hs; [|now apply below_nonempty in Hq].
  apply mergeSchemas_keys in H as (_ & Hk & _).
  apply Forall_forall. intros k Hin. apply Hk in Hin as (m & Hm & Hin).
  destruct Hm as [<- | [<- | []]].
  - destruct Hin as [<- | []]. exact Hq.
  - eapply below_trans; [exact Hq|].
    eapply Forall_forall in Hs; eauto.
Qed.

Lemma merged_below p maps h r h' :
  Forall (fun m => Forall (below p) (keys m)) maps ->
  mergeSchemas maps h = Done (r, h') ->
  Forall (below p) (keys r).
Proof.
  intros Hm H. apply mergeSchemas_keys in H as (_ & Hk & _).
  apply Forall_forall. intros k Hin. apply Hk in Hin as (m & Hin & Hkm).
  eapply Forall_forall in Hm; eauto. eapply Forall_forall in Hm; eauto.
Qed.

Lemma dispatch_below u p h r h' :
  p <> "" -> dispatch rec u p h = Done (r, h') -> Forall (below p) (keys r).
Proof.
  intros Hp H. unfold dispatch, bind at 1, deref in H.
  destruct (nth_error h u) as [[]|]; try (injection H as <- <-; constructor).
  - (* array *)
    unfold flattenArraySchema, bind at 1, deref in H.
    destruct (nth_error h u) as [[]|]; try (injection H as <- <-; constructor).
    eapply child_entry_below; [|exact H]. apply below_bracket.
  - (* tuple *)
    unfold flattenTupleSchema, bind at 1, deref in H.
    destruct (nth_error h u) as [[]|]; try (injection H as <- <-; constructor).
    bind_inv H as maps h1 Hm. eapply merged_below; [|exact H].
    apply (map_from_Forall (fun m => Forall (below p) (keys m))) in Hm; auto.
    intros x j h2 y h3 _ Hx.
    eapply child_entry_below; [|exact Hx]. apply below_bracket.
  - (* object *)
    unfold flattenObjectSchema, bind at 1, deref in H.
    destruct (nth_error h u) as [[]|]; try (injection H as <- <-; constructor).
    bind_inv H as maps h1 Hm. eapply merged_below; [|exact H].
    apply (map_from_Forall (fun m => Forall (below p) (keys m))) in Hm; auto.
    intros [key value] j h2 y h3 _ Hx.
    eapply child_entry_below; [|exact Hx]. now apply field_path_below.
  - (* union *)
    unfold flattenUnionSchema, bind at 1, deref in H.
    destruct (nth_error h u) as [[]|]; try (injection H as <- <-; constructor).
    bind_inv H as maps h1 Hm. eapply merged_below; [|exact H].
    apply (map_from_Forall (fun m => Forall (below p) (keys m))) in Hm; auto.
    intros x j h2 y h3 _ Hx.
    eapply rec_below; eauto.
Qed.

End RulesBelow.

(** Below a non-empty prefix every path continues the prefix. *)
Lemma flattenSchema_below fuel : forall a q h r h',
  q <> "" -> flattenSchema fuel a q h = Done (r, h') -> Forall (below q) (keys r).
Proof.
  induction fuel as [|fuel IH]; intros a q h r h' Hq H; [discriminate|].
  rewrite flattenSchema_dispatch in H. bind_inv H as u h1 Hu.
  eapply dispatch_below; eauto.
Qed.

Lemma flattenSchema_not_prefix fuel a q h r h' :
  q <> "" -> flattenSchema fuel a q h = Done (r, h') -> ~ In q (keys r).
Proof.
  intros Hq H Hin. apply flattenSchema_below in H; auto.
  eapply Forall_forall in H; eauto. now apply below_irrefl in H.
Qed.

(** ** Wrappers *)

Lemma unwrapSchema_plain fuel u h :
  wrapper_inner (nth_error h u) = None ->
  unwrapSchema (S fuel) u h = Done (u, h).
Proof.
  simpl. unfold bind, deref. destruct (nth_error h u) as [[]|]; simpl;
    intros; reflexivity || discriminate.
Qed.

Lemma unwrapSchema_layer fuel w inner h :
  wrapper_inner (nth_error h w) = Some inner ->
  unwrapSchema (S fuel) w h = unwrapSchema fuel inner h.
Proof.
  simpl. unfold bind, deref. destruct (nth_error h w) as [[]|]; simpl;
    intros E; try discriminate; injection E as ->; reflexivity.
Qed.

Lemma unwrapSchema_chain h k w u :
  wraps h k w u -> wrapper_inner (nth_error h u) = None ->
  forall n, unwrapSchema (k + S n) w h = Done (u, h).
Proof.
  induction 1 as [u|k w inner u Hw _ IH]; intros Hu n.
  - now apply unwrapSchema_plain.
  - simpl plus. rewrite (unwrapSchema_layer _ _ _ _ Hw). now apply IH.
Qed.

(** With room for the chain, a wrapped schema is traversed as the schema it
    decorates. *)
Lemma flattenSchema_wrapped h k w u n p :
  wraps h k w u -> wrapper_inner (nth_error h u) = None ->
  flattenSchema (S (k + S n)) w p h = flattenSchema (S (k + S n)) u p h.
Proof.
  intros Hc Hu. rewrite !flattenSchema_dispatch.
  rewrite (bind_step _ _ _ _ _ (unwrapSchema_chain h k w u Hc Hu n)).
  replace (k + S n) with (S (k + n)) by lia.
  now rewrite (bind_step _ _ _ _ _ (unwrapSchema_plain (k + n) u h Hu)).
Qed.

Lemma flattenSchema_wrapped_Done h k w u f p x :
  wraps h k w u -> wrapper_inner (nth_error h u) = None ->
  flattenSchema f u p h = Done x -> flattenSchema (k + f) w p h = Done x.
Proof.
  intros Hc Hu H. destruct f as [|[|n]]; try discriminate.
  replace (k + S (S n)) with (S (k + S n)) by lia.
  rewrite (flattenSchema_wrapped h k w u n p Hc Hu).
  replace (S (k + S n)) with (k + S (S n)) by lia.
  now apply flattenSchema_fuel.
Qed.

(** ** Objects *)

Lemma simple_app a b : simple (a ++ b) = simple a && simple b.
Proof.
  induction a as [|c a IH]; simpl; auto.
  rewrite IH. now rewrite !andb_assoc.
Qed.





(** A key held by exactly one entry keeps the value of that entry. *)
Lemma reduce_mergeEntry_once key v entries : forall acc h r h',
  reduce mergeEntry entries acc h = Done (r, h') ->
  (own key acc = None /\ values_at key entries = [v]) \/
  (own key acc = Some v /\ values_at key entries = []) ->
  own key r = Some v.
Proof.
  induction entries as [|[k x] entries IH]; intros acc h r h' H Hc; simpl in H.
  - injection H as <- <-. destruct Hc as [[_ Hc]|[Hc _]]; [discriminate|auto].
  - bind_inv H as acc1 h1 H1. apply (IH _ _ _ _ H). clear IH H.
    rewrite mergeEntry_eq in H1. unfold values_at in Hc. simpl in Hc.
    fold (values_at key entries) in Hc.
    destruct (String.eqb_spec k key) as [->|Hne]; simpl in Hc.
    + destruct Hc as [[Ha Hv]|[_ Hv]]; [|discriminate].
      injection Hv as -> Hv. rewrite Ha in H1.
      destruct (inherited key); [discriminate|]. injection H1 as <- <-.
      right. split; auto. rewrite own_app, Ha. simpl. now rewrite eqb_refl'.
    + assert (E : own key acc1 = own key acc).
      { destruct (own k acc) as [c|] eqn:Ek.
        - injection H1 as <- <-. rewrite own_assign.
          destruct (String.eqb_spec k key); [tauto|auto].
        - destruct (inherited k); [discriminate|]. injection H1 as <- <-.
          rewrite own_app. simpl.
          destruct (String.eqb_spec k key); [tauto|].
          now destruct (own key acc). }
      now rewrite E.
Qed.

Lemma values_at_below key q sub :
  Forall (below q) (keys sub) -> ~ below q key -> values_at key sub = [].
Proof.
  intros Hb Hn. apply values_at_absent. intros Hin.
  eapply Forall_forall in Hb; eauto.
Qed.





Section ObjectRule.

Variable rec : addr -> string -> M Record.
Hypothesis rec_sound : sound rec.
Hypothesis rec_below : forall a q h r h',
  q <> "" -> rec a q h = Done (r, h') -> Forall (below q) (keys r).

Lemma child_entry_shape q v a h m h' :
  q <> "" ->
  (sub <- rec a q ;; mergeSchemas [[(q, v)]; sub]) h = Done (m, h') ->
  exists sub, m = (q, v) :: sub /\ Forall (below q) (keys sub).
Proof.
  intros Hq H. bind_inv H as sub h1 Hs.
  pose proof (rec_sound _ _ _ _ _ Hs) as [_ T].
  pose proof (rec_below _ _ _ _ _ Hq Hs) as Hb.
  assert (Hp : plain q).
  { apply mergeSchemas_keys in H as (_ & Hk & _ & Hp).
    eapply Forall_forall in Hp; eauto.
    apply Hk. exists [(q, v)]. simpl. auto. }
  rewrite child_entry_cons in H; auto.
  - injection H as <- <-. eauto.
  - intros Hin. eapply Forall_forall in Hb; eauto. now apply below_irrefl in Hb.
Qed.


End ObjectRule.



Lemma Forall2_In_r {A B} (R : A -> B -> Prop) l l' y :
  Forall2 R l l' -> In y l' -> exists x, In x l /\ R x y.
Proof.
  induction 1 as [|x y' l l' Hxy _ IH]; simpl; [tauto|].
  intros [->|Hin]; [eauto|]. destruct (IH Hin) as (x' & ? & ?). eauto.
Qed.

(** ** Termination *)

Lemma inherited_simple key : inherited key = true -> simple key = true.
Proof.
  unfold inherited. rewrite existsb_exists. intros (name & Hin & E).
  apply String.eqb_eq in E. subst name.
  repeat (destruct Hin as [<-|Hin]; [reflexivity|]). destruct Hin.
Qed.

Lemma plain_bracket p s : plain (p ++ "[" ++ s).
Proof.
  unfold plain. destruct (inherited _) eqn:E; auto.
  apply inherited_simple in E. rewrite simple_app in E. simpl in E.
  now rewrite andb_false_r in E.
Qed.

Lemma plain_field_path p name : plain name -> plain (field_path p name).
Proof.
  unfold field_path. destruct (String.eqb p ""); auto. intros _.
  unfold plain. destruct (inherited _) eqn:E; auto.
  apply inherited_simple in E. rewrite simple_app in E. simpl in E.
  now rewrite andb_false_r in E.
Qed.

Lemma bounded_S d h : forall a, bounded d h a = true -> bounded (S d) h a = true.
Proof.
  induction d as [|d IH]; intros a H; [discriminate|].
  cbn [bounded] in *. destruct (nth_error h a) as [t|]; [|discriminate].
  rewrite forallb_forall in *. auto.
Qed.

Lemma bounded_inside d h a : bounded d h a = true -> a < List.length h.
Proof.
  destruct d; simpl; [discriminate|].
  destruct (nth_error h a) eqn:E; [|discriminate].
  intros _. apply nth_error_Some. congruence.
Qed.

Lemma nth_error_base (h e : heap) a :
  a < List.length h -> nth_error (h ++ e) a = nth_error h a.
Proof. apply nth_error_app1. Qed.

Lemma map_from_total {A B} (Q : B -> Prop) (f : A -> nat -> M B) l h :
  (forall x j e, In x l ->
     exists y e', f x j (h ++ e) = Done (y, h ++ e') /\ Q y) ->
  forall i e, exists ys e',
    map_from i f l (h ++ e) = Done (ys, h ++ e') /\ Forall Q ys.
Proof.
  induction l as [|x l IH]; intros Hf i e; simpl.
  - exists [], e. split; [reflexivity|constructor].
  - destruct (Hf x i e) as (y & e1 & Hy & Qy); [now left|].
    destruct (IH (fun x' j e' Hin => Hf x' j e' (or_intror Hin)) (S i) e1)
      as (ys & e2 & Hys & Qys).
    exists (y :: ys), e2.
    rewrite (bind_step _ _ _ _ _ Hy), (bind_step _ _ _ _ _ Hys).
    split; [reflexivity|now constructor].
Qed.

Lemma mergeSchemas_total_tidy maps h :
  Forall tidy maps ->
  exists r e, mergeSchemas maps h = Done (r, h ++ e) /\ tidy r.
Proof.
  intros Ht.
  destruct (mergeSchemas_total maps h) as (r & h' & H).
  { eapply Forall_impl; [|exact Ht]. intros m [_ Hp]. exact Hp. }
  pose proof (mergeSchemas_keys _ _ _ _ H) as ([e ->] & _ & T). eauto.
Qed.

Section RulesTotal.

Variable rec : addr -> string -> M Record.
Variable h : heap.

Lemma child_entry_total q v a e :
  plain q ->
  (exists r e', rec a q (h ++ e) = Done (r, h ++ e') /\ tidy r) ->
  exists r e',
    (sub <- rec a q ;; mergeSchemas [[(q, v)]; sub]) (h ++ e)
      = Done (r, h ++ e') /\ tidy r.
Proof.
  intros Hq (sub & e1 & Hs & T).
  destruct (mergeSchemas_total_tidy [[(q, v)]; sub] (h ++ e1))
    as (r & e2 & Hm & Tr).
  { constructor; [|constructor; [exact T|constructor]].
    split; simpl; constructor; auto; constructor. }
  exists r, (e1 ++ e2). rewrite (bind_step _ _ _ _ _ Hs), Hm.
  now rewrite app_assoc.
Qed.

Lemma merge_maps_total {A} (f : A -> nat -> M Record) l e :
  (forall x j e, In x l ->
     exists r e', f x j (h ++ e) = Done (r, h ++ e') /\ tidy r) ->
  exists r e',
    (maps <- array_map f l ;; mergeSchemas maps) (h ++ e)
      = Done (r, h ++ e') /\ tidy r.
Proof.
  intros Hf.
  destruct (map_from_total tidy f l h Hf 0 e) as (maps & e1 & Hm & Tm).
  destruct (mergeSchemas_total_tidy maps (h ++ e1) Tm) as (r & e2 & Hr & Tr).
  exists r, (e1 ++ e2). unfold array_map.
  rewrite (bind_step _ _ _ _ _ Hm), Hr. now rewrite app_assoc.
Qed.

End RulesTotal.

Lemma wrapper_inner_child h a i :
  wrapper_inner (nth_error h a) = Some i ->
  exists t, nth_error h a = Some t /\ children t = [i].
Proof.
  destruct (nth_error h a) as [[]|]; simpl; intros [= ->]; eauto.
Qed.

Lemma unwrapSchema_bounded h e d : forall a,
  bounded (S d) h a = true ->
  exists u,
    unwrapSchema (S d) a (h ++ e) = Done (u, h ++ e) /\
    bounded (S d) h u = true /\
    wrapper_inner (nth_error h u) = None.
Proof.
  induction d as [|d IH]; intros a Hb;
    pose proof (bounded_inside _ _ _ Hb) as Ha;
    destruct (wrapper_inner (nth_error h a)) as [i|] eqn:Hw.
  - apply wrapper_inner_child in Hw as (t & Ht & Hc).
    simpl in Hb. rewrite Ht, Hc in Hb. discriminate.
  - exists a. split; auto. apply unwrapSchema_plain.
    now rewrite nth_error_base.
  - pose proof Hw as Hw'.
    apply wrapper_inner_child in Hw as (t & Ht & Hc).
    cbn [bounded] in Hb. rewrite Ht, Hc in Hb. simpl in Hb.
    rewrite andb_true_r in Hb.
    destruct (IH i Hb) as (u & Hu & Hbu & Hnu).
    exists u. split; [|split; auto using bounded_S].
    rewrite (unwrapSchema_layer _ a i); auto.
    now rewrite nth_error_base.
  - exists a. split; auto. apply unwrapSchema_plain.
    now rewrite nth_error_base.
Qed.

Lemma flattenSchema_total h (Hplain : names_plain h) d : forall a,
  bounded d h a = true ->
  forall p e, exists r e',
    flattenSchema (S d) a p (h ++ e) = Done (r, h ++ e') /\ tidy r.
Proof.
  induction d as [|d IH]; intros a Hb p e; [discriminate|].
  rewrite flattenSchema_dispatch.
  destruct (unwrapSchema_bounded h e d a Hb) as (u & Hu & Hbu & Hnu).
  rewrite (bind_step _ _ _ _ _ Hu).
  pose proof (bounded_inside _ _ _ Hbu) as Hlt.
  cbn [bounded] in Hbu. destruct (nth_error h u) as [t|] eqn:Ht; [|discriminate].
  rewrite forallb_forall in Hbu.
  assert (Hd : deref u (h ++ e) = Done (Some t, h ++ e)).
  { unfold deref. now rewrite nth_error_base, Ht. }
  unfold dispatch. rewrite (bind_step _ _ _ _ _ Hd).
  destruct t; try (exists [], e; split; [reflexivity|apply tidy_nil]).
  - (* array *)
    unfold flattenArraySchema. rewrite (bind_step _ _ _ _ _ Hd).
    apply child_entry_total; [exact (plain_bracket p "]")|].
    apply IH. apply Hbu. simpl. auto.
  - (* tuple *)
    unfold flattenTupleSchema. rewrite (bind_step _ _ _ _ _ Hd).
    apply merge_maps_total. intros x j e1 Hin.
    apply child_entry_total; [apply plain_bracket|].
    apply IH. apply Hbu. exact Hin.
  - (* object *)
    unfold flattenObjectSchema. rewrite (bind_step _ _ _ _ _ Hd).
    apply merge_maps_total. intros [key value] j e1 Hin.
    apply child_entry_total.
    + apply plain_field_path.
      unfold names_plain in Hplain. rewrite Forall_forall in Hplain.
      specialize (Hplain _ (nth_error_In _ _ Ht)). simpl in Hplain.
      rewrite Forall_forall in Hplain. apply Hplain.
      now apply (in_map fst) in Hin.
    + apply IH. apply Hbu. simpl. now apply (in_map snd) in Hin.
  - (* union *)
    unfold flattenUnionSchema. rewrite (bind_step _ _ _ _ _ Hd).
    apply merge_maps_total. intros x j e1 Hin.
    apply IH. apply Hbu. exact Hin.
Qed.

(** ** Cycles *)

Lemma cyclic_child h a : cyclic h a -> exists b, child h a b /\ cyclic h b.
Proof.
  intros (c & Hac & Hcc). apply clos_rt_rt1n in Hac.
  destruct Hac as [|b c Hab Hbc].
  - pose proof (clos_trans_t1n _ _ _ _ Hcc) as Hcc'.
    inversion Hcc' as [y Hstep|y z Hab Hbc]; subst.
    + exists a. split; auto. exists a. split; [apply rt_refl|exact Hcc].
    + exists y. split; auto. exists a. apply clos_t1n_trans in Hbc. split.
      * now apply clos_t_clos_rt.
      * exact Hcc.
  - exists b. split; auto. exists c. split; auto. now apply clos_rt1n_rt.
Qed.

Lemma child_inside h a b : child h a b -> a < List.length h.
Proof. intros (t & Ht & _). apply nth_error_Some. congruence. Qed.

Lemma unwrapSchema_result fuel : forall a h u h',
  unwrapSchema fuel a h = Done (u, h') ->
  wrapper_inner (nth_error h u) = None.
Proof.
  induction fuel as [|fuel IH]; intros a h u h' H; [discriminate|].
  simpl in H. unfold bind, deref in H.
  destruct (nth_error h a) as [[]|] eqn:E;
    try (injection H as <- <-; now rewrite E); eauto.
Qed.

Lemma unwrapSchema_cyclic h0 fuel : forall a h u h',
  cyclic h0 a -> extends h0 h ->
  unwrapSchema fuel a h = Done (u, h') -> cyclic h0 u.
Proof.
  induction fuel as [|fuel IH]; intros a h u h' Hc He H; [discriminate|].
  destruct (cyclic_child _ _ Hc) as (b & Hab & Hb).
  pose proof (child_inside _ _ _ Hab) as Ha.
  destruct Hab as (t & Ht & Hin).
  simpl in H. unfold bind at 1, deref in H.
  rewrite (extends_nth h0 h a He Ha), Ht in H.
  destruct t; try (injection H as <- <-; exact Hc);
    simpl in Hin; destruct Hin as [<-|[]]; eauto.
Qed.

Lemma map_from_each {A B} (f : A -> nat -> M B) l :
  forall i h ys h' x,
  map_from i f l h = Done (ys, h') ->
  In x l ->
  (forall x j h1 y h2, In x l -> f x j h1 = Done (y, h2) -> extends h1 h2) ->
  exists j h1 y h2, extends h h1 /\ f x j h1 = Done (y, h2).
Proof.
  induction l as [|x0 l IH]; intros i h ys h' x H Hin Hf; [destruct Hin|].
  simpl in H. bind_inv H as y h1 Hy. bind_inv H as ys' h2 Hys.
  destruct Hin as [->|Hin].
  - exists i, h, y, h1. split; auto with zod.
  - pose proof (Hf x0 i h y h1 (or_introl eq_refl) Hy) as E.
    destruct (IH (S i) h1 ys' h2 x Hys Hin
                 (fun x' j a b c Hx => Hf x' j a b c (or_intror Hx)))
      as (j & h3 & y' & h4 & E' & Hx).
    exists j, h3, y', h4. split; eauto with zod.
Qed.

Lemma flattenSchema_cyclic h0 fuel : forall a p h r h',
  cyclic h0 a -> extends h0 h ->
  flattenSchema fuel a p h <> Done (r, h').
Proof.
  induction fuel as [|fuel IH]; intros a p h r h' Hc He H; [discriminate|].
  rewrite flattenSchema_dispatch in H. bind_inv H as u h1 Hu.
  pose proof (unwrapSchema_result _ _ _ _ _ Hu) as Hw.
  pose proof (unwrapSchema_cyclic _ _ _ _ _ _ Hc He Hu) as Hcu.
  apply unwrapSchema_heap in Hu as ->.
  destruct (cyclic_child _ _ Hcu) as (b & Hub & Hb).
  pose proof (child_inside _ _ _ Hub) as Hlt.
  destruct Hub as (t & Ht & Hin).
  assert (Hn : nth_error h u = Some t) by now rewrite (extends_nth h0 h).
  assert (Hd : deref u h = Done (Some t, h)) by (unfold deref; now rewrite Hn).
  pose proof (flattenSchema_sound fuel) as Hs.
  unfold dispatch in H. rewrite (bind_step _ _ _ _ _ Hd) in H.
  rewrite Hn in Hw.
  destruct t; simpl in Hin; try contradiction; try discriminate.
  - (* array *)
    destruct Hin as [<-|[]].
    unfold flattenArraySchema in H. rewrite (bind_step _ _ _ _ _ Hd) in H.
    bind_inv H as sub h2 Hsub. eapply IH; eauto.
  - (* tuple *)
    unfold flattenTupleSchema in H. rewrite (bind_step _ _ _ _ _ Hd) in H.
    bind_inv H as maps h2 Hm.
    eapply map_from_each in Hm as (j & h3 & y & h4 & E & Hx); [|exact Hin|].
    + bind_inv Hx as sub h5 Hsub. eapply (IH _ _ h3); eauto with zod.
    + intros x j h3 y h4 _ Hx. now apply (child_entry_sound _ Hs) in Hx.
  - (* object *)
    unfold flattenObjectSchema in H. rewrite (bind_step _ _ _ _ _ Hd) in H.
    bind_inv H as maps h2 Hm.
    apply in_map_iff in Hin as ([key value] & Ev & Hin). simpl in Ev. subst.
    eapply map_from_each in Hm as (j & h3 & y & h4 & E & Hx); [|exact Hin|].
    + simpl in Hx. bind_inv Hx as sub h5 Hsub.
      eapply (IH _ _ h3); eauto with zod.
    + intros [k v] j h3 y h4 _ Hx. now apply (child_entry_sound _ Hs) in Hx.
  - (* union *)
    unfold flattenUnionSchema in H. rewrite (bind_step _ _ _ _ _ Hd) in H.
    bind_inv H as maps h2 Hm.
    eapply map_from_each in Hm as (j & h3 & y & h4 & E & Hx); [|exact Hin|].
    + eapply (IH _ _ h3); eauto with zod.
    + intros x j h3 y h4 _ Hx. now apply Hs in Hx.
Qed.

(** In a closed heap, a schema that reaches no cycle is bounded: a chain
    longer than the heap would meet some schema twice. *)
Lemma unbounded_chain h (Hc : closed h) d : forall a,
  a < List.length h -> bounded d h a = false ->
  exists l, List.length l = d /\ chain h a l.
Proof.
  induction d as [|d IH]; intros a Ha Hb.
  - exists []. simpl. auto.
  - cbn [bounded] in Hb. destruct (nth_error h a) as [t|] eqn:Ht.
    2:{ apply nth_error_None in Ht. lia. }
    pose proof (Hc a t Ht) as Hin. rewrite Forall_forall in Hin.
    assert (Hex : exists b, In b (children t) /\ bounded d h b = false).
    { clear Hin. induction (children t) as [|b bs IHb]; [discriminate|].
      simpl in Hb. destruct (bounded d h b) eqn:Eb.
      - destruct (IHb Hb) as (b' & ? & ?). exists b'. simpl. auto.
      - exists b. simpl. auto. }
    destruct Hex as (b & Hbin & Hbb).
    destruct (IH b (Hin b Hbin) Hbb) as (l & Hl & Hch).
    exists (b :: l). simpl. split; [lia|]. split; auto.
    exists t. auto.
Qed.

Lemma chain_inside h (Hc : closed h) l : forall a,
  a < List.length h -> chain h a l -> Forall (fun b => b < List.length h) l.
Proof.
  induction l as [|b l IH]; intros a Ha H; [constructor|].
  destruct H as [(t & Ht & Hin) H].
  specialize (Hc a t Ht). rewrite Forall_forall in Hc.
  constructor; [auto|]. apply (IH b); auto.
Qed.

Lemma chain_reach h l1 : forall a y l2,
  chain h a (l1 ++ y :: l2) ->
  clos_trans addr (child h) a y /\ chain h y l2.
Proof.
  induction l1 as [|b l1 IH]; intros a y l2 H; simpl in H; destruct H as [Hab H].
  - split; auto. now apply t_step.
  - destruct (IH _ _ _ H) as [Hby Hy]. split; auto.
    eapply t_trans; [apply t_step; exact Hab|exact Hby].
Qed.

Lemma repeated_or_NoDup (l : list addr) :
  NoDup l \/ exists x l1 l2 l3, l = l1 ++ x :: l2 ++ x :: l3.
Proof.
  induction l as [|x l IH]; [left; constructor|].
  destruct (in_dec Nat.eq_dec x l) as [Hin|Hnin].
  - right. apply in_split in Hin as (l2 & l3 & ->). now exists x, [], l2, l3.
  - destruct IH as [Hnd|(y & l1 & l2 & l3 & ->)].
    + left. now constructor.
    + right. now exists y, (x :: l1), l2, l3.
Qed.

Lemma chain_cyclic h a x l1 l2 l3 l :
  a :: l = l1 ++ x :: l2 ++ x :: l3 -> chain h a l -> cyclic h a.
Proof.
  intros E H. exists x. destruct l1 as [|a' l1]; simpl in E; injection E as -> ->.
  - apply chain_reach in H as [Hxx _]. split; [apply rt_refl|exact Hxx].
  - apply chain_reach in H as [Hax H]. apply chain_reach in H as [Hxx _].
    split; [now apply clos_t_clos_rt|exact Hxx].
Qed.

Lemma acyclic_bounded h a :
  closed h -> a < List.length h -> ~ cyclic h a ->
  bounded (List.length h) h a = true.
Proof.
  intros Hc Ha Hn. destruct (bounded (List.length h) h a) eqn:Hb; auto.
  exfalso. apply Hn.
  destruct (unbounded_chain h Hc _ a Ha Hb) as (l & Hl & Hch).
  destruct (repeated_or_NoDup (a :: l)) as [Hnd|(x & l1 & l2 & l3 & E)].
  - assert (Hincl : incl (a :: l) (seq 0 (List.length h))).
    { intros b Hin. apply in_seq. split; [lia|]. simpl.
      destruct Hin as [<-|Hin]; auto.
      pose proof (chain_inside h Hc l a Ha Hch) as Hall.
      rewrite Forall_forall in Hall. auto. }
    apply (NoDup_incl_length Hnd) in Hincl. rewrite length_seq in Hincl.
    simpl in Hincl. lia.
  - eapply chain_cyclic; eauto.
Qed.

Lemma bounded_acyclic d h : forall a, bounded d h a = true -> ~ cyclic h a.
Proof.
  induction d as [|d IH]; intros a Hb Hc; [discriminate|].
  destruct (cyclic_child _ _ Hc) as (b & (t & Ht & Hin) & Hcb).
  cbn [bounded] in Hb. rewrite Ht, forallb_forall in Hb.
  exact (IH b (Hb b Hin) Hcb).
Qed.

Lemma bind_Overflow {A B} (m : M A) (f : A -> M B) h :
  m h = Overflow -> bind m f h = Overflow.
Proof. unfold bind. now intros ->. Qed.

Lemma flattenSchema_selfish fuel : forall p,
  flattenSchema fuel 0 p selfish = Overflow.
Proof.
  induction fuel as [|fuel IH]; intros p; [reflexivity|].
  rewrite flattenSchema_dispatch. destruct fuel as [|fuel]; [reflexivity|].
  rewrite (bind_step _ _ _ _ _ (unwrapSchema_plain fuel 0 selfish eq_refl)).
  unfold dispatch, flattenObjectSchema, array_map, bind at 1 2, deref.
  change (nth_error selfish 0) with (Some (ZodObject [("self", 0)])).
  cbv beta iota.
  change (nth_error selfish 0) with (Some (ZodObject [("self", 0)])).
  cbv beta iota. cbn [map_from]. do 3 apply bind_Overflow. apply IH.
Qed.

(** ** Two runs over the same graph *)

Lemma same_shape_extends n0 n1 H1 H2 H1' H2' :
  extends H1 H1' -> extends H2 H2' ->
  forall v1 v2,
  same_shape n0 n1 H1 H2 v1 v2 -> same_shape n0 n1 H1' H2' v1 v2.
Proof.
  intros E1 E2. fix IH 3. intros v1 v2 [v Hv|v1' v2' o1 o2 A B C D F].
  - now apply same_object.
  - apply (same_union _ _ _ _ _ _ o1 o2); auto.
    + rewrite (extends_nth H1 H1'); auto. apply nth_error_Some. congruence.
    + rewrite (extends_nth H2 H2'); auto. apply nth_error_Some. congruence.
    + clear C D. revert o1 o2 F. fix IHF 3.
      intros o1 o2 [|x y l l' Hxy Hl]; constructor.
      * apply IH. exact Hxy.
      * apply IHF. exact Hl.
Qed.

Lemma same_shape_refl n0 n1 H1 H2 (l : list addr) :
  Forall (fun v => v < n0) l -> Forall2 (same_shape n0 n1 H1 H2) l l.
Proof. induction 1; constructor; auto. now apply same_object. Qed.

Lemma alike_extends n0 n1 H1 H2 H1' H2' r1 r2 :
  extends H1 H1' -> extends H2 H2' ->
  alike n0 n1 H1 H2 r1 r2 -> alike n0 n1 H1' H2' r1 r2.
Proof.
  intros E1 E2 H. induction H as [|[k1 v1] [k2 v2] r1 r2 [Hk Hv] _ IH];
    constructor; auto.
  split; auto. eapply same_shape_extends; eauto.
Qed.

Lemma alike_own n0 n1 H1 H2 r1 r2 key :
  alike n0 n1 H1 H2 r1 r2 ->
  match own key r1, own key r2 with
  | Some c1, Some c2 => same_shape n0 n1 H1 H2 c1 c2
  | None, None => True
  | _, _ => False
  end.
Proof.
  induction 1 as [|[k1 v1] [k2 v2] r1 r2 [Hk Hv] _ IH]; simpl; auto.
  simpl in Hk. subst k2. destruct (String.eqb k1 key); auto.
Qed.

Lemma alike_assign n0 n1 H1 H2 r1 r2 key u1 u2 :
  alike n0 n1 H1 H2 r1 r2 -> same_shape n0 n1 H1 H2 u1 u2 ->
  alike n0 n1 H1 H2 (assign key u1 r1) (assign key u2 r2).
Proof.
  intros H Hu. induction H as [|[k1 v1] [k2 v2] r1 r2 [Hk Hv] Hr IH]; simpl.
  - constructor; [split; auto|constructor].
  - simpl in Hk. subst k2. destruct (String.eqb k1 key);
      constructor; auto.
Qed.

Lemma alike_app n0 n1 H1 H2 r1 r2 s1 s2 :
  alike n0 n1 H1 H2 r1 r2 -> alike n0 n1 H1 H2 s1 s2 ->
  alike n0 n1 H1 H2 (r1 ++ s1) (r2 ++ s2).
Proof. apply Forall2_app. Qed.

Section TwoRuns.

Variable h0 : heap.
Variable n1 : nat.
Hypothesis base_closed : closed h0.

Lemma splice_alike H1 H2 c1 c2 :
  extends h0 H1 -> extends h0 H2 ->
  same_shape (List.length h0) n1 H1 H2 c1 c2 ->
  Forall2 (same_shape (List.length h0) n1 H1 H2) (splice H1 c1) (splice H2 c2).
Proof.
  intros E1 E2 [v Hv|v1 v2 o1 o2 A B C D F]; unfold splice.
  - rewrite (extends_nth h0 H1), (extends_nth h0 H2) by auto.
    destruct (nth_error h0 v) as [t|] eqn:Ht.
    + pose proof (base_closed v t Ht) as Hc.
      destruct t; apply same_shape_refl; try exact Hc; now repeat constructor.
    + apply same_shape_refl. now repeat constructor.
  - now rewrite C, D.
Qed.

Lemma mergeEntry_alike H1 H2 acc1 acc2 key v1 v2 r1 H1' :
  extends h0 H1 -> extends h0 H2 -> n1 <= List.length H2 ->
  alike (List.length h0) n1 H1 H2 acc1 acc2 ->
  same_shape (List.length h0) n1 H1 H2 v1 v2 ->
  mergeEntry acc1 (key, v1) H1 = Done (r1, H1') ->
  exists r2 H2',
    mergeEntry acc2 (key, v2) H2 = Done (r2, H2') /\
    extends H1 H1' /\ extends H2 H2' /\
    alike (List.length h0) n1 H1' H2' r1 r2.
Proof.
  intros E1 E2 Hn Ha Hv H. rewrite mergeEntry_eq in *.
  pose proof (alike_own _ _ _ _ _ _ key Ha) as Ho.
  destruct (own key acc1) as [c1|], (own key acc2) as [c2|]; try contradiction.
  - injection H as <- <-. eexists _, _. split; [reflexivity|].
    split; [auto with zod|]. split; [auto with zod|].
    apply alike_assign.
    + eapply alike_extends; [| |exact Ha]; auto with zod.
    + apply (same_union _ _ _ _ _ _ (splice H1 c1 ++ [v1]) (splice H2 c2 ++ [v2])).
      * now apply extends_length.
      * exact Hn.
      * now rewrite nth_error_app2, Nat.sub_diag by lia.
      * now rewrite nth_error_app2, Nat.sub_diag by lia.
      * apply Forall2_app.
        -- eapply Forall2_impl; [|exact (splice_alike _ _ _ _ E1 E2 Ho)].
           intros a b Hab.
           eapply same_shape_extends; [| |exact Hab]; auto with zod.
        -- constructor; [|constructor].
           eapply same_shape_extends; [| |exact Hv]; auto with zod.
  - destruct (inherited key); [discriminate|]. injection H as <- <-.
    eexists _, _. split; [reflexivity|]. split; [auto with zod|].
    split; [auto with zod|]. apply alike_app; auto.
    constructor; [split; auto|constructor].
Qed.

Lemma reduce_mergeEntry_alike entries1 : forall entries2 H1 H2 acc1 acc2 r1 H1',
  extends h0 H1 -> extends h0 H2 -> n1 <= List.length H2 ->
  alike (List.length h0) n1 H1 H2 acc1 acc2 ->
  alike (List.length h0) n1 H1 H2 entries1 entries2 ->
  reduce mergeEntry entries1 acc1 H1 = Done (r1, H1') ->
  exists r2 H2',
    reduce mergeEntry entries2 acc2 H2 = Done (r2, H2') /\
    extends H1 H1' /\ extends H2 H2' /\ alike (List.length h0) n1 H1' H2' r1 r2.
Proof.
  induction entries1 as [|[k v1] entries1 IH];
    intros entries2 H1 H2 acc1 acc2 r1 H1' E1 E2 Hn Ha He H;
    inversion He as [|? [k2 v2] ? entries2' [Hk Hv] He']; subst; simpl in H.
  - injection H as <- <-. exists acc2, H2. simpl. auto with zod.
  - simpl in Hk. subst k2. bind_inv H as a1 H1a Hstep.
    destruct (mergeEntry_alike _ _ _ _ _ _ _ _ _ E1 E2 Hn Ha Hv Hstep)
      as (a2 & H2a & Hstep2 & E1a & E2a & Ha').
    destruct (IH entries2' H1a H2a a1 a2 r1 H1') as (r2 & H2' & Hr & ? & ? & ?);
      eauto with zod.
    + apply extends_length in E2a. lia.
    + eapply alike_extends; [| |exact He']; auto.
    + exists r2, H2'. simpl. rewrite (bind_step _ _ _ _ _ Hstep2).
      split; [exact Hr|]. eauto with zod.
Qed.

Lemma mergeSchemas_alike maps1 maps2 H1 H2 r1 H1' :
  extends h0 H1 -> extends h0 H2 -> n1 <= List.length H2 ->
  Forall2 (alike (List.length h0) n1 H1 H2) maps1 maps2 ->
  mergeSchemas maps1 H1 = Done (r1, H1') ->
  exists r2 H2',
    mergeSchemas maps2 H2 = Done (r2, H2') /\
    extends H1 H1' /\ extends H2 H2' /\ alike (List.length h0) n1 H1' H2' r1 r2.
Proof.
  intros E1 E2 Hn Hm H. unfold mergeSchemas in *.
  rewrite mergeSchemas_concat in *.
  eapply reduce_mergeEntry_alike; eauto.
  - constructor.
  - clear H. induction Hm; simpl; [constructor|]. now apply alike_app.
Qed.

Lemma unwrapSchema_base fuel : forall a H u H',
  a < List.length h0 -> extends h0 H ->
  unwrapSchema fuel a H = Done (u, H') ->
  u < List.length h0 /\
  forall H2, extends h0 H2 -> unwrapSchema fuel a H2 = Done (u, H2).
Proof.
  induction fuel as [|fuel IH]; intros a H u H' Ha E Hu; [discriminate|].
  simpl in Hu. unfold bind at 1, deref in Hu.
  rewrite (extends_nth h0 H a E Ha) in Hu.
  assert (Hstep : forall H2, extends h0 H2 ->
            unwrapSchema (S fuel) a H2
            = match wrapper_inner (nth_error h0 a) with
              | Some inner => unwrapSchema fuel inner H2
              | None => Done (a, H2)
              end).
  { intros H2 E2. simpl. unfold bind at 1, deref.
    rewrite (extends_nth h0 H2 a E2 Ha).
    destruct (nth_error h0 a) as [[]|]; reflexivity. }
  destruct (nth_error h0 a) as [t|] eqn:Ht.
  2:{ injection Hu as <- <-. split; auto; intros H2 E2; now rewrite Hstep. }
  pose proof (base_closed a t Ht) as Hc.
  destruct t; simpl in Hc;
    try (injection Hu as <- <-; split; [auto|intros H2 E2; now rewrite Hstep]);
    inversion Hc as [|? ? Hi _]; subst;
    destruct (IH _ _ _ _ Hi E Hu) as [Hlt Hall];
    (split; [exact Hlt|intros H2 E2; rewrite Hstep by auto; now apply Hall]).
Qed.

Lemma child_entry_stable (rec : addr -> string -> M Record) a q :
  a < List.length h0 ->
  stable h0 n1 (rec a q) ->
  stable h0 n1 (sub <- rec a q ;; mergeSchemas [[(q, a)]; sub]).
Proof.
  intros Ha Hrec H1 H2 r1 H1' E1 E2 Hn H.
  bind_inv H as sub1 H1a Hs.
  destruct (Hrec _ _ _ _ E1 E2 Hn Hs) as (sub2 & H2a & Hs2 & E1a & E2a & Hsub).
  destruct (mergeSchemas_alike [[(q, a)]; sub1] [[(q, a)]; sub2] H1a H2a r1 H1')
    as (r2 & H2' & Hm & E1b & E2b & Hr); eauto with zod.
  - apply extends_length in E2a. lia.
  - constructor; [|constructor; [exact Hsub|constructor]].
    constructor; [|constructor]. split; auto. now apply same_object.
  - exists r2, H2'. rewrite (bind_step _ _ _ _ _ Hs2). eauto 6 with zod.
Qed.

Lemma map_from_alike {A} (f : A -> nat -> M Record) l :
  (forall x j, In x l -> stable h0 n1 (f x j)) ->
  forall i H1 H2 ys1 H1',
    extends h0 H1 -> extends h0 H2 -> n1 <= List.length H2 ->
    map_from i f l H1 = Done (ys1, H1') ->
    exists ys2 H2',
      map_from i f l H2 = Done (ys2, H2') /\ extends H1 H1' /\
      extends H2 H2' /\ Forall2 (alike (List.length h0) n1 H1' H2') ys1 ys2.
Proof.
  induction l as [|x l IH]; intros Hf i H1 H2 ys1 H1' E1 E2 Hn H; simpl in H.
  - injection H as <- <-. exists [], H2. simpl. auto with zod.
  - bind_inv H as y1 H1a Hy. bind_inv H as ys H1b Hys. injection H as <- <-.
    destruct (Hf x i (or_introl eq_refl) _ _ _ _ E1 E2 Hn Hy)
      as (y2 & H2a & Hy2 & E1a & E2a & Hyy).
    destruct (IH (fun x' j Hin => Hf x' j (or_intror Hin)) (S i) H1a H2a ys H1b)
      as (ys2 & H2' & Hys2 & E1b & E2b & Hall); eauto with zod.
    { apply extends_length in E2a. lia. }
    exists (y2 :: ys2), H2'. simpl.
    rewrite (bind_step _ _ _ _ _ Hy2), (bind_step _ _ _ _ _ Hys2).
    split; [reflexivity|]. split; [eauto with zod|]. split; [eauto with zod|].
    constructor; auto. eapply alike_extends; [| |exact Hyy]; auto.
Qed.

Lemma merge_maps_stable {A} (f : A -> nat -> M Record) l :
  (forall x j, In x l -> stable h0 n1 (f x j)) ->
  stable h0 n1 (maps <- array_map f l ;; mergeSchemas maps).
Proof.
  intros Hf H1 H2 r1 H1' E1 E2 Hn H. bind_inv H as maps1 H1a Hm.
  destruct (map_from_alike f l Hf 0 _ _ _ _ E1 E2 Hn Hm)
    as (maps2 & H2a & Hm2 & E1a & E2a & Hall).
  destruct (mergeSchemas_alike maps1 maps2 H1a H2a r1 H1')
    as (r2 & H2' & Hr & E1b & E2b & Hrr); eauto with zod.
  { apply extends_length in E2a. lia. }
  exists r2, H2'. unfold array_map. rewrite (bind_step _ _ _ _ _ Hm2).
  eauto 6 with zod.
Qed.

Lemma stable_nil : stable h0 n1 (ret []).
Proof.
  intros H1 H2 r1 H1' E1 E2 Hn H. injection H as <- <-.
  exists [], H2. repeat split; auto with zod. constructor.
Qed.

Lemma dispatch_stable (rec : addr -> string -> M Record) u p :
  u < List.length h0 ->
  (forall a q, a < List.length h0 -> stable h0 n1 (rec a q)) ->
  stable h0 n1 (dispatch rec u p).
Proof.
  intros Hu Hrec.
  assert (Hd : forall (k : option ZodType -> M Record),
            stable h0 n1 (k (nth_error h0 u)) ->
            stable h0 n1 (d <- deref u ;; k d)).
  { intros k Hk H1 H2 r1 H1' E1 E2 Hn H.
    unfold bind at 1, deref in H. rewrite (extends_nth h0 H1 u E1 Hu) in H.
    destruct (Hk _ _ _ _ E1 E2 Hn H) as (r2 & H2' & Hr & ?).
    exists r2, H2'. unfold bind at 1, deref.
    now rewrite (extends_nth h0 H2 u E2 Hu). }
  unfold dispatch. apply Hd.
  destruct (nth_error h0 u) as [t|] eqn:Ht; [|apply stable_nil].
  pose proof (base_closed u t Ht) as Hc. rewrite Forall_forall in Hc.
  destruct t; try apply stable_nil; simpl in Hc.
  - unfold flattenArraySchema. apply Hd.
    apply child_entry_stable; auto.
  - unfold flattenTupleSchema. apply Hd.
    apply merge_maps_stable. intros x j Hin.
    apply child_entry_stable; auto.
  - unfold flattenObjectSchema. apply Hd.
    apply merge_maps_stable. intros [key value] j Hin.
    assert (value < List.length h0)
      by (apply Hc; now apply (in_map snd) in Hin).
    apply child_entry_stable; auto.
  - unfold flattenUnionSchema. apply Hd.
    apply merge_maps_stable. intros x j Hin. auto.
Qed.

Lemma flattenSchema_stable fuel : forall a p,
  a < List.length h0 -> stable h0 n1 (flattenSchema fuel a p).
Proof.
  induction fuel as [|fuel IH]; intros a p Ha H1 H2 r1 H1' E1 E2 Hn H;
    [discriminate|].
  rewrite flattenSchema_dispatch in H. bind_inv H as u H1a Hu.
  pose proof (unwrapSchema_heap _ _ _ _ _ Hu) as ->.
  destruct (unwrapSchema_base _ _ _ _ _ Ha E1 Hu) as [Hlt Hall].
  destruct (dispatch_stable (flattenSchema fuel) u p Hlt IH _ _ _ _ E1 E2 Hn H)
    as (r2 & H2' & Hr & ?).
  exists r2, H2'. rewrite flattenSchema_dispatch.
  now rewrite (bind_step _ _ _ _ _ (Hall H2 E2)).
Qed.

End TwoRuns.

(** ** Order of the keys *)



(** ** What is allocated *)

Lemma grows_refl h : grows h h.
Proof. exists []. split; [now rewrite app_nil_r|constructor]. Qed.

Lemma grows_trans h1 h2 h3 : grows h1 h2 -> grows h2 h3 -> grows h1 h3.
Proof.
  intros (e1 & -> & F1) (e2 & -> & F2). exists (e1 ++ e2).
  split; [now rewrite app_assoc|now apply Forall_app].
Qed.

Lemma grows_union h options : grows h (h ++ [ZodUnion options]).
Proof. exists [ZodUnion options]. split; auto. repeat constructor. eauto. Qed.

#[local] Hint Resolve grows_refl grows_trans grows_union : zod.

Lemma reduce_mergeEntry_grows entries : forall acc h r h',
  reduce mergeEntry entries acc h = Done (r, h') ->
  grows h h' /\
  List.length h' + List.length r
  = List.length h + List.length acc + List.length entries.
Proof.
  induction entries as [|[k v] entries IH]; intros acc h r h' H; simpl in H.
  - injection H as <- <-. split; [auto with zod|simpl; lia].
  - bind_inv H as acc1 h1 H1. apply IH in H as [G L].
    rewrite mergeEntry_eq in H1. destruct (own k acc) as [c|] eqn:E.
    + injection H1 as <- <-. split; [eauto with zod|].
      assert (List.length (assign k (List.length h) acc) = List.length acc).
      { rewrite <- !(length_map fst). fold (keys (assign k (List.length h) acc)).
        now rewrite keys_assign, E. }
      rewrite length_app in L. simpl in *. lia.
    + destruct (inherited k); [discriminate|]. injection H1 as <- <-.
      split; auto. rewrite length_app in L. simpl in *. lia.
Qed.

Lemma mergeSchemas_grows maps h r h' :
  mergeSchemas maps h = Done (r, h') -> grows h h'.
Proof.
  unfold mergeSchemas. rewrite mergeSchemas_concat. intros H.
  now apply reduce_mergeEntry_grows in H.
Qed.

Lemma map_from_grows {A B} (f : A -> nat -> M B) l :
  (forall x j h1 y h2, In x l -> f x j h1 = Done (y, h2) -> grows h1 h2) ->
  forall i h ys h', map_from i f l h = Done (ys, h') -> grows h h'.
Proof.
  induction l as [|x l IH]; intros Hf i h ys h' H; simpl in H.
  - injection H as <- <-. auto with zod.
  - bind_inv H as y h1 Hy. bind_inv H as ys' h2 Hys. injection H as <- <-.
    apply (grows_trans _ h1).
    + eapply Hf; eauto. now left.
    + eapply IH; eauto. intros. eapply Hf; eauto. now right.
Qed.

Section RulesGrow.

Variable rec : addr -> string -> M Record.
Hypothesis rec_grows : forall a p h r h',
  rec a p h = Done (r, h') -> grows h h'.

Lemma child_entry_grows q v a h r h' :
  (sub <- rec a q ;; mergeSchemas [[(q, v)]; sub]) h = Done (r, h') ->
  grows h h'.
Proof.
  intros H. bind_inv H as sub h1 Hs. apply rec_grows in Hs.
  apply mergeSchemas_grows in H. eauto with zod.
Qed.

Lemma dispatch_grows u p h r h' :
  dispatch rec u p h = Done (r, h') -> grows h h'.
Proof.
  intros H. unfold dispatch, bind at 1, deref in H.
  destruct (nth_error h u) as [[]|]; try (injection H as <- <-; auto with zod).
  - unfold flattenArraySchema, bind at 1, deref in H.
    destruct (nth_error h u) as [[]|]; try (injection H as <- <-; auto with zod).
    eapply child_entry_grows; eauto.
  - unfold flattenTupleSchema, bind at 1, deref in H.
    destruct (nth_error h u) as [[]|]; try (injection H as <- <-; auto with zod).
    bind_inv H as maps h1 Hm. apply mergeSchemas_grows in H.
    apply map_from_grows in Hm; [eauto with zod|].
    intros x j h2 y h3 _ Hx. eapply child_entry_grows; eauto.
  - unfold flattenObjectSchema, bind at 1, deref in H.
    destruct (nth_error h u) as [[]|]; try (injection H as <- <-; auto with zod).
    bind_inv H as maps h1 Hm. apply mergeSchemas_grows in H.
    apply map_from_grows in Hm; [eauto with zod|].
    intros [key value] j h2 y h3 _ Hx. eapply child_entry_grows; eauto.
  - unfold flattenUnionSchema, bind at 1, deref in H.
    destruct (nth_error h u) as [[]|]; try (injection H as <- <-; auto with zod).
    bind_inv H as maps h1 Hm. apply mergeSchemas_grows in H.
    apply map_from_grows in Hm; [eauto with zod|].
    intros x j h2 y h3 _ Hx. eapply rec_grows; eauto.
Qed.

End RulesGrow.

Lemma flattenSchema_grows fuel : forall a p h r h',
  flattenSchema fuel a p h = Done (r, h') -> grows h h'.
Proof.
  induction fuel as [|fuel IH]; intros a p h r h' H; [discriminate|].
  rewrite flattenSchema_dispatch in H. bind_inv H as u h1 Hu.
  apply unwrapSchema_heap in Hu as ->. eapply dispatch_grows; eauto.
Qed.

(** ** Where the values come from *)

Lemma assign_Forall (P : string * addr -> Prop) key v r :
  Forall P r -> P (key, v) -> (forall x, P (key, x) -> P (key, v)) ->
  Forall P (assign key v r).
Proof.
  intros H Hv _. induction H as [|[k x] r Hx Hr IH]; simpl.
  - now repeat constructor.
  - destruct (String.eqb_spec k key) as [->|]; constructor; auto.
Qed.

Lemma reduce_mergeEntry_values (P : addr -> Prop) entries : forall acc h r h',
  reduce mergeEntry entries acc h = Done (r, h') ->
  (forall v, List.length h <= v -> P v) ->
  Forall (fun e => P (snd e)) acc -> Forall (fun e => P (snd e)) entries ->
  Forall (fun e => P (snd e)) r.
Proof.
  induction entries as [|[k v] entries IH]; intros acc h r h' H Hf Ha He;
    simpl in H.
  - now injection H as <- <-.
  - bind_inv H as acc1 h1 H1. inversion He as [|? ? Hv He']; subst.
    rewrite mergeEntry_eq in H1. destruct (own k acc) as [c|] eqn:E.
    + injection H1 as <- <-. apply (IH _ _ _ _ H); auto.
      * intros x Hx. apply Hf. rewrite length_app in Hx. lia.
      * apply assign_Forall; simpl; auto.
    + destruct (inherited k); [discriminate|]. injection H1 as <- <-.
      apply (IH _ _ _ _ H); auto. apply Forall_app. split; auto.
Qed.

Lemma mergeSchemas_values (P : addr -> Prop) maps h r h' :
  mergeSchemas maps h = Done (r, h') ->
  (forall v, List.length h <= v -> P v) ->
  Forall (Forall (fun e => P (snd e))) maps ->
  Forall (fun e => P (snd e)) r.
Proof.
  unfold mergeSchemas. rewrite mergeSchemas_concat. intros H Hf Hm.
  apply (reduce_mergeEntry_values P _ _ _ _ _ H); auto.
  now apply Forall_concat.
Qed.

Lemma map_from_values {A B} (Q : B -> Prop) (f : A -> nat -> M B) l h0 :
  (forall x j h1 y h2, In x l -> extends h0 h1 -> f x j h1 = Done (y, h2) ->
     extends h1 h2 /\ Q y) ->
  forall i h ys h', extends h0 h ->
    map_from i f l h = Done (ys, h') -> extends h h' /\ Forall Q ys.
Proof.
  induction l as [|x l IH]; intros Hf i h ys h' E H; simpl in H.
  - injection H as <- <-. auto with zod.
  - bind_inv H as y h1 Hy. bind_inv H as ys' h2 Hys. injection H as <- <-.
    destruct (Hf x i h y h1) as [E1 Qy]; simpl; auto.
    destruct (IH (fun x' j a b c Hin => Hf x' j a b c (or_intror Hin))
                 (S i) h1 ys' h2) as [E2 Qys]; eauto with zod.
Qed.

Section Values.

Variable h0 : heap.
Hypothesis base_closed : closed h0.

Lemma unwrapSchema_reach fuel : forall a H u H',
  a < List.length h0 -> extends h0 H ->
  unwrapSchema fuel a H = Done (u, H') ->
  clos_refl_trans addr (child h0) a u.
Proof.
  induction fuel as [|fuel IH]; intros a H u H' Ha E Hu; [discriminate|].
  simpl in Hu. unfold bind at 1, deref in Hu.
  rewrite (extends_nth h0 H a E Ha) in Hu.
  destruct (nth_error h0 a) as [t|] eqn:Ht;
    [|injection Hu as <- <-; apply rt_refl].
  pose proof (base_closed a t Ht) as Hc.
  destruct t; try (injection Hu as <- <-; apply rt_refl);
    simpl in Hc; inversion Hc as [|? ? Hi _]; subst;
    (eapply rt_trans;
     [apply rt_step; eexists; split; [exact Ht|simpl; auto]
     |eapply IH; eauto]).
Qed.

Lemma child_entry_values (rec : addr -> string -> M Record) a b q H r H' :
  clos_trans addr (child h0) a b ->
  extends h0 H ->
  (forall h1 r1 h2, extends h0 h1 -> rec b q h1 = Done (r1, h2) ->
     extends h1 h2 /\
     Forall (fun e => clos_trans addr (child h0) b (snd e) \/
                      List.length h0 <= snd e) r1) ->
  (sub <- rec b q ;; mergeSchemas [[(q, b)]; sub]) H = Done (r, H') ->
  extends H H' /\
  Forall (fun e => clos_trans addr (child h0) a (snd e) \/
                   List.length h0 <= snd e) r.
Proof.
  intros Hab E Hrec Hx. bind_inv Hx as sub h1 Hs.
  destruct (Hrec _ _ _ E Hs) as [E1 Hsub].
  pose proof (mergeSchemas_keys _ _ _ _ Hx) as (E2 & _).
  split; [eauto with zod|].
  apply (mergeSchemas_values
           (fun v => clos_trans addr (child h0) a v \/ List.length h0 <= v) _ _ _ _ Hx).
  - intros v Hv. right. apply extends_length in E, E1. lia.
  - constructor; [|constructor; [|constructor]].
    { constructor; [left; exact Hab|constructor]. }
    eapply Forall_impl; [|exact Hsub]. intros e [Hd|Hf]; [left|now right].
    eapply t_trans; eauto.
Qed.

Lemma merged_values a maps H r H' :
  extends h0 H ->
  Forall (Forall (fun e => clos_trans addr (child h0) a (snd e) \/
                           List.length h0 <= snd e)) maps ->
  mergeSchemas maps H = Done (r, H') ->
  Forall (fun e => clos_trans addr (child h0) a (snd e) \/
                   List.length h0 <= snd e) r.
Proof.
  intros E Hm Hx.
  apply (mergeSchemas_values
           (fun v => clos_trans addr (child h0) a v \/ List.length h0 <= v) _ _ _ _ Hx); auto.
  intros v Hv. right. apply extends_length in E. lia.
Qed.

Lemma flattenSchema_values fuel : forall a p H r H',
  a < List.length h0 -> extends h0 H ->
  flattenSchema fuel a p H = Done (r, H') ->
  Forall (fun e => clos_trans addr (child h0) a (snd e) \/
                   List.length h0 <= snd e) r.
Proof.
  induction fuel as [|fuel IH]; intros a p H r H' Ha E Hx; [discriminate|].
  rewrite flattenSchema_dispatch in Hx. bind_inv Hx as u h1 Hu.
  pose proof (unwrapSchema_reach _ _ _ _ _ Ha E Hu) as Hau.
  destruct (unwrapSchema_base h0 base_closed _ _ _ _ _ Ha E Hu) as [Hlt _].
  apply unwrapSchema_heap in Hu as ->.
  assert (Hrec : forall b, child h0 u b ->
            clos_trans addr (child h0) a b /\
            forall q h1 r1 h2, extends h0 h1 ->
              flattenSchema fuel b q h1 = Done (r1, h2) ->
              extends h1 h2 /\
              Forall (fun e => clos_trans addr (child h0) b (snd e) \/
                               List.length h0 <= snd e) r1).
  { intros b Hub. split.
    - apply clos_rt_rtn1 in Hau. clear - Hau Hub.
      induction Hau as [|y z Hyz _ IH'] in b, Hub |- *.
      + now apply t_step.
      + eapply t_trans; [apply IH'; exact Hyz|now apply t_step].
    - intros q h1 r1 h2 E1 Hb. split; [now apply flattenSchema_sound in Hb|].
      eapply IH; eauto. destruct Hub as (t & Ht & Hin).
      pose proof (base_closed u t Ht) as Hc. rewrite Forall_forall in Hc. auto. }
  unfold dispatch, bind at 1, deref in Hx.
  rewrite (extends_nth h0 H u E Hlt) in Hx.
  destruct (nth_error h0 u) as [t|] eqn:Ht; [|injection Hx as <- <-; constructor].
  assert (Hd : nth_error H u = Some t) by now rewrite (extends_nth h0 H).
  destruct t; try (injection Hx as <- <-; constructor).
  - unfold flattenArraySchema, bind at 1, deref in Hx. rewrite Hd in Hx.
    destruct (Hrec element) as [Hreach Hsub];
      [eexists; split; [exact Ht|simpl; auto]|].
    eapply child_entry_values in Hx; [apply Hx|exact Hreach|exact E|].
    intros h1 r1 h2. apply Hsub.
  - unfold flattenTupleSchema, bind at 1, deref in Hx. rewrite Hd in Hx.
    bind_inv Hx as maps h2 Hm.
    eapply (map_from_values _ _ _ h0) in Hm as [E2 Hall]; eauto.
    + eapply merged_values; [|exact Hall|exact Hx]. eauto with zod.
    + intros x j h3 y h4 Hin E3 Hy.
      destruct (Hrec x) as [Hreach Hsub];
        [eexists; split; [exact Ht|simpl; auto]|].
      eapply child_entry_values in Hy; [apply Hy|exact Hreach|exact E3|].
      intros h5 r1 h6. apply Hsub.
  - unfold flattenObjectSchema, bind at 1, deref in Hx. rewrite Hd in Hx.
    bind_inv Hx as maps h2 Hm.
    eapply (map_from_values _ _ _ h0) in Hm as [E2 Hall]; eauto.
    + eapply merged_values; [|exact Hall|exact Hx]. eauto with zod.
    + intros [key value] j h3 y h4 Hin E3 Hy.
      destruct (Hrec value) as [Hreach Hsub];
        [eexists; split; [exact Ht|simpl; now apply (in_map snd) in Hin]|].
      eapply child_entry_values in Hy; [apply Hy|exact Hreach|exact E3|].
      intros h5 r1 h6. apply Hsub.
  - unfold flattenUnionSchema, bind at 1, deref in Hx. rewrite Hd in Hx.
    bind_inv Hx as maps h2 Hm.
    eapply (map_from_values _ _ _ h0) in Hm as [E2 Hall]; eauto.
    + eapply merged_values; [|exact Hall|exact Hx]. eauto with zod.
    + intros x j h3 y h4 Hin E3 Hy.
      destruct (Hrec x) as [Hreach Hsub];
        [eexists; split; [exact Ht|simpl; auto]|].
      destruct (Hsub _ _ _ _ E3 Hy) as [E4 Hv]. split; auto.
      eapply Forall_impl; [|exact Hv]. intros e [Hdesc|Hf]; [left|now right].
      eapply t_trans; eauto.
Qed.

End Values.

(** ** Single rules *)

Lemma unwrapSchema_wraps fuel : forall a h u h',
  unwrapSchema fuel a h = Done (u, h') ->
  exists k, k < fuel /\ wraps h k a u.
Proof.
  induction fuel as [|fuel IH]; intros a h u h' H; [discriminate|].
  destruct (wrapper_inner (nth_error h a)) as [i|] eqn:Hw.
  - rewrite (unwrapSchema_layer _ _ _ _ Hw) in H.
    destruct (IH _ _ _ _ H) as (k & Hk & Hc).
    exists (S k). split; [lia|]. now apply (wraps_layer h k a i u).
  - rewrite (unwrapSchema_plain _ _ _ Hw) in H. injection H as <- <-.
    exists 0. split; [lia|apply wraps_none].
Qed.

Lemma sapp_nonempty (p s : string) : s <> "" -> (p ++ s)%string <> "".
Proof. destruct p; simpl; auto. discriminate. Qed.

Lemma flattenSchema_array fuel a element p h :
  nth_error h a = Some (ZodArray element) ->
  flattenSchema (S (S fuel)) a p h
  = (sub <- flattenSchema (S fuel) element (p ++ "[]") ;;
     ret (((p ++ "[]")%string, element) :: sub)) h.
Proof.
  intros Hn. rewrite flattenSchema_dispatch.
  rewrite (bind_step _ _ _ _ _
             (unwrapSchema_plain fuel a h ltac:(now rewrite Hn))).
  unfold dispatch, bind at 1, deref. rewrite Hn.
  unfold flattenArraySchema, bind at 1, deref. rewrite Hn.
  apply bind_ext. intros sub h1 Hs.
  pose proof (flattenSchema_sound _ _ _ _ _ _ Hs) as [_ T].
  apply child_entry_cons; auto.
  - exact (plain_bracket p "]").
  - apply (flattenSchema_not_prefix _ _ _ _ _ _ (sapp_nonempty p "[]"
             ltac:(discriminate)) Hs).
Qed.

Lemma flattenSchema_childless fuel a p h :
  childless h a -> flattenSchema (S (S fuel)) a p h = Done ([], h).
Proof.
  unfold childless. intros Hc. rewrite flattenSchema_dispatch.
  assert (Hw : wrapper_inner (nth_error h a) = None).
  { destruct (nth_error h a) as [[]|]; simpl in *; auto; discriminate. }
  rewrite (bind_step _ _ _ _ _ (unwrapSchema_plain fuel a h Hw)).
  unfold dispatch, bind at 1, deref.
  destruct (nth_error h a) as [t|] eqn:Hn; [|reflexivity].
  destruct t; simpl in Hc; try reflexivity; try discriminate.
  - unfold flattenTupleSchema, bind at 1, deref. rewrite Hn. now subst.
  - unfold flattenObjectSchema, bind at 1, deref. rewrite Hn.
    destruct shape; [reflexivity|discriminate].
  - unfold flattenUnionSchema, bind at 1, deref. rewrite Hn. now subst.
Qed.

(** ** Tuples *)

Lemma lacks_decimal n : lacks "]" (decimal n) = true.
Proof.
  unfold decimal. induction (Nat.to_uint n); simpl; auto.
Qed.

Lemma decimal_inj i j : decimal i = decimal j -> i = j.
Proof.
  unfold decimal. intros H.
  apply (f_equal NilEmpty.uint_of_string) in H. rewrite !NilEmpty.usu in H.
  injection H as H. apply (f_equal Nat.of_uint) in H.
  now rewrite !Unsigned.of_to in H.
Qed.

(** The first occurrence of a character splits a string in one way only. *)
Lemma lacks_split c a : forall b s t,
  lacks c a = true -> lacks c b = true ->
  (a ++ String c s)%string = (b ++ String c t)%string -> a = b /\ s = t.
Proof.
  induction a as [|x a IH]; intros [|y b] s t Ha Hb H; simpl in *.
  - now injection H.
  - injection H as <- H. rewrite Ascii.eqb_refl in Hb. discriminate.
  - injection H as -> H. rewrite Ascii.eqb_refl in Ha. discriminate.
  - injection H as -> H. apply andb_true_iff in Ha as [_ Ha], Hb as [_ Hb].
    destruct (IH _ _ _ Ha Hb H) as [-> ->]. auto.
Qed.

Lemma tuple_path_inj p i j : tuple_path p i = tuple_path p j -> i = j.
Proof.
  unfold tuple_path. intros H. apply sapp_inj_l in H. injection H as H.
  apply lacks_split in H as [H _]; auto using lacks_decimal.
  now apply decimal_inj.
Qed.

Lemma tuple_path_not_below p i j : ~ below (tuple_path p i) (tuple_path p j).
Proof.
  unfold tuple_path. intros [rest H].
  destruct H as [H|H]; rewrite sapp_assoc in H; apply sapp_inj_l in H;
    injection H as H; rewrite sapp_assoc in H;
    apply lacks_split in H as [_ H]; auto using lacks_decimal; discriminate.
Qed.

Lemma indexed_from_In i items : forall j x,
  In (j, x) (indexed_from i items) <->
  i <= j /\ nth_error items (j - i) = Some x.
Proof.
  revert i. induction items as [|y items IH]; intros i j x; simpl.
  - split; [tauto|]. intros [_ H]. now destruct (j - i).
  - rewrite IH. split.
    + intros [[= <- <-]|[Hle Hn]].
      * rewrite Nat.sub_diag. auto.
      * split; [lia|]. replace (j - i) with (S (j - S i)) by lia. exact Hn.
    + intros [Hle Hn]. destruct (j - i) as [|k] eqn:E.
      * left. injection Hn as ->. f_equal. lia.
      * right. split; [lia|]. replace (j - S i) with k by lia. exact Hn.
Qed.

Lemma indexed_from_NoDup items : forall i, NoDup (map fst (indexed_from i items)).
Proof.
  induction items as [|y items IH]; intros i; simpl; constructor; auto.
  intros Hin. apply in_map_iff in Hin as ([j x] & Hj & Hin). simpl in Hj.
  subst j. apply indexed_from_In in Hin. lia.
Qed.

Lemma map_from_indexed (R : nat -> addr -> Record -> Prop)
  (f : addr -> nat -> M Record) l :
  (forall x j h1 y h2, f x j h1 = Done (y, h2) -> R j x y) ->
  forall i h ys h',
  map_from i f l h = Done (ys, h') ->
  Forall2 (fun jx y => R (fst jx) (snd jx) y) (indexed_from i l) ys.
Proof.
  intros Hf. induction l as [|x l IH]; intros i h ys h' H; simpl in H.
  - injection H as <- <-. constructor.
  - bind_inv H as y h1 Hy. bind_inv H as ys' h2 Hys. injection H as <- <-.
    simpl. constructor; eauto.
Qed.

Lemma entry_at_other q0 v0 m q :
  entry_at q0 v0 m -> q0 <> q -> ~ below q0 q -> values_at q m = [].
Proof.
  intros (sub & -> & Hb) Hne Hnb. unfold values_at. simpl.
  destruct (String.eqb_spec q0 q); [tauto|].
  now apply (values_at_below _ _ _ Hb).
Qed.

Lemma entry_at_self q v m :
  entry_at q v m -> values_at q m = [v].
Proof.
  intros (sub & -> & Hb). unfold values_at. simpl.
  rewrite String.eqb_refl. simpl. f_equal.
  apply (values_at_below _ _ _ Hb), below_irrefl.
Qed.

Lemma entries_none (qs : list (string * addr)) maps q :
  Forall2 (fun qv m => entry_at (fst qv) (snd qv) m) qs maps ->
  ~ In q (map fst qs) ->
  (forall q', In q' (map fst qs) -> ~ below q' q) ->
  values_at q (List.concat maps) = [].
Proof.
  induction 1 as [|[q0 v0] m qs maps Hm _ IH]; simpl; intros Hin Hnb; auto.
  rewrite values_at_app, IH by auto.
  rewrite (entry_at_other q0 v0 m q); auto.
Qed.

(** Children whose paths are distinct and never below one another each keep
    their own entry through the merge. *)
Lemma entries_values (qs : list (string * addr)) maps :
  Forall2 (fun qv m => entry_at (fst qv) (snd qv) m) qs maps ->
  NoDup (map fst qs) ->
  (forall q q', In q (map fst qs) -> In q' (map fst qs) -> ~ below q' q) ->
  forall q v, In (q, v) qs -> values_at q (List.concat maps) = [v].
Proof.
  induction 1 as [|[q0 v0] m qs maps Hm Hrest IH]; simpl;
    intros Hnd Hnb q v Hin; [tauto|].
  inversion Hnd as [|? ? Hfresh Hnd']; subst.
  rewrite values_at_app. destruct Hin as [[= -> ->]|Hin].
  - rewrite (entry_at_self q v m), (entries_none qs maps q); auto.
  - assert (Hq : In q (map fst qs)) by now apply (in_map fst) in Hin.
    rewrite (entry_at_other q0 v0 m q); auto.
    + now rewrite (IH Hnd' (fun a b Ha Hb =>
                              Hnb a b (or_intror Ha) (or_intror Hb)) q v Hin).
    + intros ->. tauto.
Qed.

Lemma flattenSchema_tuple fuel a p h items x :
  nth_error h a = Some (ZodTuple items) ->
  flattenSchema fuel a p h = Done x ->
  exists fuel', fuel = S (S fuel') /\
    flattenTupleSchema (flattenSchema (S fuel')) a p h = Done x.
Proof.
  intros Hn H. destruct fuel as [|[|fuel']]; try discriminate.
  exists fuel'. split; auto.
  rewrite flattenSchema_dispatch in H.
  rewrite (bind_step _ _ _ _ _ (unwrapSchema_plain fuel' a h
             ltac:(now rewrite Hn))) in H.
  unfold dispatch, bind at 1, deref in H. now rewrite Hn in H.
Qed.

Lemma flattenTupleSchema_items fuel a p h items r h' :
  nth_error h a = Some (ZodTuple items) ->
  flattenTupleSchema (flattenSchema fuel) a p h = Done (r, h') ->
  exists maps h1,
    Forall2 (fun jx m => entry_at (tuple_path p (fst jx)) (snd jx) m)
            (indexed_from 0 items) maps /\
    mergeSchemas maps h1 = Done (r, h').
Proof.
  intros Hn H. unfold flattenTupleSchema, bind at 1, deref in H.
  rewrite Hn in H. bind_inv H as maps h1 Hm. exists maps, h1. split; auto.
  unfold array_map in Hm.
  refine (map_from_indexed (fun j x m => entry_at (tuple_path p j) x m)
            _ items _ 0 h maps h1 Hm).
  intros x j h2 y h3 Hx.
  apply (child_entry_shape _ (flattenSchema_sound fuel)
           (flattenSchema_below fuel)) in Hx; auto.
  apply sapp_nonempty. discriminate.
Qed.

Lemma Forall2_map_left {A B C} (g : A -> B) (R : B -> C -> Prop) l l' :
  Forall2 (fun x y => R (g x) y) l l' -> Forall2 R (map g l) l'.
Proof. induction 1; simpl; constructor; auto. Qed.

Lemma NoDup_map_inj {A B} (g : A -> B) l :
  (forall x y, g x = g y -> x = y) -> NoDup l -> NoDup (map g l).
Proof.
  intros Hg. induction 1 as [|x l Hx _ IH]; simpl; constructor; auto.
  intros Hin. apply in_map_iff in Hin as (y & E & Hy). apply Hg in E.
  now subst.
Qed.

(** ** Unions *)

Lemma alike_keys n0 n1 H1 H2 r1 r2 :
  alike n0 n1 H1 H2 r1 r2 -> keys r1 = keys r2.
Proof.
  induction 1 as [|[k1 v1] [k2 v2] r1 r2 [Hk _] _ IH]; simpl; auto.
  simpl in Hk. now rewrite Hk, IH.
Qed.

Lemma map_from_trace {A B} (f : A -> nat -> M B) l :
  (forall x j h1 y h2, In x l -> f x j h1 = Done (y, h2) -> extends h1 h2) ->
  forall i h ys h',
  map_from i f l h = Done (ys, h') ->
  extends h h' /\
  Forall2 (fun x y => exists j h1 h2,
             extends h h1 /\ f x j h1 = Done (y, h2)) l ys.
Proof.
  induction l as [|x l IH]; intros Hf i h ys h' H; simpl in H.
  - injection H as <- <-. split; [auto with zod|constructor].
  - bind_inv H as y h1 Hy. bind_inv H as ys' h2 Hys. injection H as <- <-.
    pose proof (Hf x i h y h1 (or_introl eq_refl) Hy) as E.
    destruct (IH (fun x' j a b c Hx => Hf x' j a b c (or_intror Hx))
                 (S i) h1 ys' h2 Hys) as [E' F].
    split; [eauto with zod|]. constructor.
    + exists i, h, h1. auto with zod.
    + eapply Forall2_impl; [|exact F].
      intros a b (j & h3 & h4 & E3 & Hab). exists j, h3, h4.
      split; eauto with zod.
Qed.

Lemma Forall2_In_l {A B} (R : A -> B -> Prop) l l' x :
  Forall2 R l l' -> In x l -> exists y, In y l' /\ R x y.
Proof.
  induction 1 as [|x' y l l' Hxy _ IH]; simpl; [tauto|].
  intros [->|Hin]; [eauto|]. destruct (IH Hin) as (y' & ? & ?). eauto.
Qed.

Lemma flattenSchema_union fuel a p h options x :
  nth_error h a = Some (ZodUnion options) ->
  flattenSchema (S (S fuel)) a p h = Done x ->
  flattenUnionSchema (flattenSchema (S fuel)) a p h = Done x.
Proof.
  intros Hn H. rewrite flattenSchema_dispatch in H.
  rewrite (bind_step _ _ _ _ _ (unwrapSchema_plain fuel a h
             ltac:(now rewrite Hn))) in H.
  unfold dispatch, bind at 1, deref in H. now rewrite Hn in H.
Qed.

(** * The claims *)

(** C1, as stated, fails: [resolve] has no error path.  For a path that is
    not in the flattened record the property read yields [undefined], and that
    is what the call returns. *)
Lemma resolve_returns_undefined :
  resolve 5 4 "posts.title" blog = Done (JsUndefined, blog).
Proof. reflexivity. Qed.

(** C1 (amended): for a path that is not a key of [flatten(S)], [resolve]
    raises nothing; it returns the value of the property read [flat[path]],
    which is [undefined], or the member inherited from [Object.prototype]
    when the path names one. *)
Theorem resolve_absent fuel schema path h flat h' :
  flatten fuel schema h = Done (flat, h') ->
  ~ In path (keys flat) ->
  resolve fuel schema path h
  = Done (if inherited path then JsInherited path else JsUndefined, h').
Proof.
  intros H Hk. unfold resolve. rewrite (bind_step _ _ _ _ _ H).
  unfold ret, get. apply own_None in Hk. now rewrite Hk.
Qed.

Lemma resolve_absent_witness :
  resolve 5 4 "valueOf" blog = Done (JsInherited "valueOf", blog).
Proof.
  apply (resolve_absent 5 4 "valueOf" blog
           [("name", 0); ("posts", 3); ("posts[]", 2); ("posts[].title", 1)]
           blog).
  - reflexivity.
  - simpl. intuition discriminate.
Defined.

(** C2, as stated, fails: there is no cycle detection and no error for it.
    On the self-referential object [selfish] the traversal needs more stack
    than it has, whatever it has. *)
Lemma flatten_cycle_overflows :
  ~ exists fuel, flatten fuel 0 selfish <> Overflow.
Proof. intros [fuel H]. apply H. apply flattenSchema_selfish. Qed.

(** C2 (amended): on an acyclic schema graph [flatten] returns: a root that
    reaches no cycle is bounded by the size of the heap, and where every
    chain of references from the root ends within [d] schemas a stack of depth
    [d + 1] is enough (field names being ordinary names).  On a graph where
    the root reaches a cycle the code detects nothing: the call never returns
    a record, however deep the stack. *)
Theorem flatten_terminates h a p :
  (closed h -> a < List.length h -> ~ cyclic h a ->
     bounded (List.length h) h a = true) /\
  (forall d, bounded d h a = true -> names_plain h ->
     exists r h', flattenSchema (S d) a p h = Done (r, h')) /\
  (cyclic h a ->
     forall fuel r h', flattenSchema fuel a p h <> Done (r, h')).
Proof.
  split; [apply acyclic_bounded|]. split.
  - intros d Hb Hp.
    destruct (flattenSchema_total h Hp d a Hb p []) as (r & e & H & _).
    rewrite app_nil_r in H. eauto.
  - intros Hc fuel r h'. apply (flattenSchema_cyclic h); auto with zod.
Qed.

Lemma flatten_terminates_witness :
  (exists r h', flattenSchema 5 4 "" blog = Done (r, h')) /\
  (forall fuel r h', flattenSchema fuel 0 "" selfish <> Done (r, h')).
Proof.
  split.
  - apply (proj1 (proj2 (flatten_terminates blog 4 "")) 4).
    + reflexivity.
    + repeat constructor.
  - apply (proj2 (proj2 (flatten_terminates selfish 0 ""))).
    exists 0. split; [apply rt_refl|]. apply t_step.
    exists (ZodObject [("self", 0)]). split; [reflexivity|]. simpl. auto.
Defined.






(** C5, as stated, fails for the unions that the merge creates: every call of
    [flatten] allocates them anew.  After [flatten] has stored the union at
    address 7 under [type], [resolve] returns another object, at address 8,
    with the same options. *)
Lemma resolve_allocates_again :
  flatten 4 6 vehicles
  = Done ([("type", 7); ("doors", 1); ("gears", 4)],
          vehicles ++ [ZodUnion [0; 3]])
  /\ resolve 4 6 "type" (vehicles ++ [ZodUnion [0; 3]])
     = Done (JsSchema 8, vehicles ++ [ZodUnion [0; 3]; ZodUnion [0; 3]]).
Proof. split; reflexivity. Qed.

(** C5 (amended): [resolve(S, K)] returns the value that its own call of
    [flatten(S)] stores at [K].  Compared with the record of another call of
    [flatten(S)], it is the identical object whenever that value is a schema
    of the caller's graph; when the value is a union created by the merge,
    [resolve] returns a union created by its own call: a different object,
    whose options correspond to those of the other one. *)
Theorem resolve_roundtrip fuel S K h flat h1 v :
  closed h -> S < List.length h ->
  flatten fuel S h = Done (flat, h1) ->
  own K flat = Some v ->
  resolve fuel S K h = Done (JsSchema v, h1) /\
  exists v' h2,
    resolve fuel S K h1 = Done (JsSchema v', h2) /\
    same_shape (List.length h) (List.length h1) h1 h2 v v' /\
    (v < List.length h -> v' = v) /\
    (List.length h <= v -> v < v').
Proof.
  intros Hc HS H Hv. split.
  - unfold resolve. rewrite (bind_step _ _ _ _ _ H). unfold ret, get.
    now rewrite Hv.
  - pose proof (flattenSchema_sound _ _ _ _ _ _ H) as [E _].
    destruct (flattenSchema_stable h (List.length h1) Hc fuel S "" HS
                h h1 flat h1 (extends_refl h) E (le_n _) H)
      as (r2 & h2 & H2 & _ & E2 & Ha).
    pose proof (alike_own _ _ _ _ _ _ K Ha) as Ho. rewrite Hv in Ho.
    destruct (own K r2) as [v'|] eqn:Hv'; [|contradiction].
    exists v', h2. split; [|split; [exact Ho|]].
    + unfold resolve, flatten. rewrite (bind_step _ _ _ _ _ H2).
      unfold ret, get. now rewrite Hv'.
    + destruct Ho as [v Hlt|v v' o1 o2 Hge Hge' U1 U2 _].
      * split; [reflexivity|lia].
      * assert (v < List.length h1) by (apply nth_error_Some; congruence).
        split; lia.
Qed.

Lemma resolve_roundtrip_witness :
  resolve 4 6 "type" vehicles
    = Done (JsSchema 7, vehicles ++ [ZodUnion [0; 3]]) /\
  exists v' h2,
    resolve 4 6 "type" (vehicles ++ [ZodUnion [0; 3]])
      = Done (JsSchema v', h2) /\
    same_shape (List.length vehicles)
      (List.length (vehicles ++ [ZodUnion [0; 3]]))
      (vehicles ++ [ZodUnion [0; 3]]) h2 7 v' /\
    (7 < List.length vehicles -> v' = 7) /\
    (List.length vehicles <= 7 -> 7 < v').
Proof.
  apply (resolve_roundtrip 4 6 "type" vehicles
           [("type", 7); ("doors", 1); ("gears", 4)]).
  - intros a t H.
    do 7 (destruct a as [|a];
          [injection H as <-; repeat constructor; simpl; lia|]).
    destruct a; discriminate.
  - simpl. lia.
  - reflexivity.
  - reflexivity.
Defined.



(** C7: the blog schema flattens to exactly the four paths [name], [posts],
    [posts[]] and [posts[].title], and resolving [posts[].title] gives the
    string schema object of the [title] field. *)
Theorem flatten_blog n :
  flatten (5 + n) 4 blog
  = Done ([("name", 0); ("posts", 3); ("posts[]", 2); ("posts[].title", 1)],
          blog)
  /\ resolve (5 + n) 4 "posts[].title" blog = Done (JsSchema 1, blog)
  /\ nth_error blog 2 = Some (ZodObject [("title", 1)])
  /\ nth_error blog 1 = Some ZodString.
Proof.
  assert (F : flatten (5 + n) 4 blog
    = Done ([("name", 0); ("posts", 3); ("posts[]", 2); ("posts[].title", 1)],
            blog)).
  { unfold flatten. rewrite Nat.add_comm. now apply flattenSchema_fuel. }
  split; [exact F|]. split; [|split; reflexivity].
  unfold resolve. now rewrite (bind_step _ _ _ _ _ F).
Qed.

(** C8: the union of the two vehicle objects flattens to exactly the paths
    [type], [doors] and [gears]; [type] resolves to a union created by the
    merge, of the two literals in branch order; [doors] resolves to the
    number schema object of the first branch itself. *)
Theorem flatten_vehicles n :
  flatten (4 + n) 6 vehicles
  = Done ([("type", 7); ("doors", 1); ("gears", 4)],
          vehicles ++ [ZodUnion [0; 3]])
  /\ resolve (4 + n) 6 "type" vehicles
     = Done (JsSchema 7, vehicles ++ [ZodUnion [0; 3]])
  /\ resolve (4 + n) 6 "doors" vehicles
     = Done (JsSchema 1, vehicles ++ [ZodUnion [0; 3]])
  /\ nth_error vehicles 2 = Some (ZodObject [("type", 0); ("doors", 1)]).
Proof.
  assert (F : flatten (4 + n) 6 vehicles
    = Done ([("type", 7); ("doors", 1); ("gears", 4)],
            vehicles ++ [ZodUnion [0; 3]])).
  { unfold flatten. rewrite Nat.add_comm. now apply flattenSchema_fuel. }
  split; [exact F|].
  split; [|split; [|reflexivity]];
    unfold resolve; now rewrite (bind_step _ _ _ _ _ F).
Qed.




(** * Further properties of [flatten.ts] *)









(** X5: [flatten] leaves the caller's schema graph as it is: every object
    that existed before the call is unchanged after it (same address, same
    content), and every object the call creates is a union. *)
Theorem flatten_only_adds_unions fuel schema h r h' :
  flatten fuel schema h = Done (r, h') ->
  (forall a, a < List.length h -> nth_error h' a = nth_error h a) /\
  (forall a, List.length h <= a -> a < List.length h' ->
     is_union h' a = true).
Proof.
  intros H. apply flattenSchema_grows in H as (e & -> & F). split.
  - intros a Ha. now apply nth_error_app1.
  - intros a Hge Hlt. unfold is_union. rewrite nth_error_app2 by lia.
    rewrite length_app in Hlt.
    destruct (nth_error e (a - List.length h)) as [t|] eqn:E.
    + apply nth_error_In in E. rewrite Forall_forall in F.
      destruct (F _ E) as [o ->]. reflexivity.
    + apply nth_error_None in E. lia.
Qed.

Lemma flatten_only_adds_unions_witness :
  (forall a, a < List.length nested ->
     nth_error (nested ++ [ZodUnion [2; 4]; ZodUnion [0; 8]]) a
     = nth_error nested a) /\
  (forall a, List.length nested <= a ->
     a < List.length (nested ++ [ZodUnion [2; 4]; ZodUnion [0; 8]]) ->
     is_union (nested ++ [ZodUnion [2; 4]; ZodUnion [0; 8]]) a = true).
Proof.
  apply (flatten_only_adds_unions 5 7 nested [("x", 9)]). reflexivity.
Defined.



(** X7: [flatten] invents no schema: in a graph without dangling references,
    every value of the flattened record is either a schema of the caller's
    graph that the root refers to, directly or through other schemas, or a
    union created by the call. *)
Theorem flatten_values_from_graph fuel schema h r h' key v :
  closed h -> schema < List.length h ->
  flatten fuel schema h = Done (r, h') ->
  own key r = Some v ->
  (v < List.length h /\ clos_trans addr (child h) schema v) \/
  (List.length h <= v /\ exists options, nth_error h' v = Some (ZodUnion options)).
Proof.
  intros Hc Hs H Hv.
  pose proof (flattenSchema_values h Hc _ _ _ _ _ _ Hs (extends_refl h) H) as Hall.
  destruct (flattenSchema_stable h 0 Hc fuel schema "" Hs
              h h r h' (extends_refl h) (extends_refl h) (Nat.le_0_l _) H)
    as (r2 & h2 & _ & _ & _ & Ha).
  pose proof (alike_own _ _ _ _ _ _ key Ha) as Ho. rewrite Hv in Ho.
  destruct (own key r2) as [v2|]; [|contradiction].
  destruct Ho as [v Hlt|v v2 o1 o2 Hge _ U1 _ _].
  - left. split; auto. apply own_In in Hv.
    rewrite Forall_forall in Hall. destruct (Hall _ Hv) as [Hd|Hf]; auto.
    simpl in Hf. lia.
  - right. eauto.
Qed.

Lemma flatten_values_from_graph_witness :
  (1 < List.length vehicles /\ clos_trans addr (child vehicles) 6 1) \/
  (List.length vehicles <= 1 /\
   exists options,
     nth_error (vehicles ++ [ZodUnion [0; 3]]) 1 = Some (ZodUnion options)).
Proof.
  apply (flatten_values_from_graph 4 6 vehicles
           [("type", 7); ("doors", 1); ("gears", 4)] _ "doors" 1).
  - intros a t H.
    do 7 (destruct a as [|a];
          [injection H as <-; repeat constructor; simpl; lia|]).
    destruct a; discriminate.
  - simpl. lia.
  - reflexivity.
  - reflexivity.
Defined.

(** X8: below a non-empty prefix every path of the record continues that
    prefix with [.] or [[], so it is strictly longer than the prefix and the
    prefix itself is never a key: a schema gets its own entry from its parent
    only. *)
Theorem flatten_paths_continue_prefix fuel schema prefix h r h' :
  prefix <> "" ->
  flattenSchema fuel schema prefix h = Done (r, h') ->
  own prefix r = None /\
  forall key, In key (keys r) ->
    below prefix key /\ String.length prefix < String.length key.
Proof.
  intros Hp H. split.
  - apply own_None. eapply flattenSchema_not_prefix; eauto.
  - intros key Hin. apply flattenSchema_below in H; auto.
    rewrite Forall_forall in H. split; auto. now apply below_length, H.
Qed.

Lemma flatten_paths_continue_prefix_witness :
  own "posts" [("posts[]", 2); ("posts[].title", 1)] = None /\
  forall key, In key (keys [("posts[]", 2); ("posts[].title", 1)]) ->
    below "posts" key /\ String.length "posts" < String.length key.
Proof.
  apply (flatten_paths_continue_prefix 4 3 "posts" blog _ blog).
  - discriminate.
  - reflexivity.
Defined.

(** X9: [unwrapSchema] reads the heap without changing it and returns
    exactly the schema found under the chain of optional, nullable and
    default wrappers: the result is never such a wrapper, and a chain of [k]
    wrappers is unwrapped as soon as the stack has room for [k + 1] calls. *)
Theorem unwrapSchema_spec fuel schema h u :
  (forall h', unwrapSchema fuel schema h = Done (u, h') -> h' = h) /\
  (unwrapSchema fuel schema h = Done (u, h) <->
   exists k, k < fuel /\ wraps h k schema u /\
             wrapper_inner (nth_error h u) = None).
Proof.
  split; [intros h'; apply unwrapSchema_heap|]. split.
  - intros H. destruct (unwrapSchema_wraps _ _ _ _ _ H) as (k & Hk & Hc).
    exists k. repeat split; auto. eapply unwrapSchema_result; eauto.
  - intros (k & Hk & Hc & Hu).
    replace fuel with (k + S (fuel - S k)) by lia.
    now apply unwrapSchema_chain.
Qed.

Lemma unwrapSchema_spec_witness :
  unwrapSchema 3 3 wrapped = Done (1, wrapped).
Proof.
  apply (proj2 (unwrapSchema_spec 3 3 wrapped 1)).
  exists 2. split; [lia|]. split; [|reflexivity].
  apply (wraps_layer wrapped 1 3 2 1); [reflexivity|].
  apply (wraps_layer wrapped 0 2 1 1); [reflexivity|]. apply wraps_none.
Defined.

(** X10: a schema without children (a string, number, boolean or literal, an
    empty object, an empty tuple, a union of nothing), under any number of
    optional, nullable and default wrappers, flattens to the empty record at
    every prefix, and nothing is allocated. *)
Theorem flatten_childless h k w u fuel prefix :
  wraps h k w u -> childless h u ->
  flattenSchema (k + S (S fuel)) w prefix h = Done ([], h).
Proof.
  intros Hc Hu. apply (flattenSchema_wrapped_Done h k w u); auto.
  - unfold childless in Hu.
    destruct (nth_error h u) as [[]|]; simpl in *; auto; discriminate.
  - now apply flattenSchema_childless.
Qed.

Lemma flatten_childless_witness :
  flattenSchema 3 1 "" [ZodObject []; ZodOptional 0]
  = Done ([], [ZodObject []; ZodOptional 0]).
Proof.
  apply (flatten_childless [ZodObject []; ZodOptional 0] 1 1 0 0 "").
  - apply (wraps_layer _ 0 1 0 0); [reflexivity|apply wraps_none].
  - reflexivity.
Defined.

(** X11: an array schema at prefix [p] flattens to one entry, [p[]] mapped to
    the element schema itself, followed by the record of the element at
    prefix [p[]]; the two never collide, so [p[]] is never mapped to a
    union created by the merge. *)
Theorem flatten_array fuel schema element prefix h r h' :
  nth_error h schema = Some (ZodArray element) ->
  flattenSchema fuel schema prefix h = Done (r, h') ->
  exists fuel' sub,
    fuel = S (S fuel') /\
    flattenSchema (S fuel') element (prefix ++ "[]") h = Done (sub, h') /\
    r = ((prefix ++ "[]")%string, element) :: sub /\
    own (prefix ++ "[]") r = Some element.
Proof.
  intros Hn H. destruct fuel as [|[|fuel']]; try discriminate.
  rewrite (flattenSchema_array _ _ _ _ _ Hn) in H.
  bind_inv H as sub h1 Hs. injection H as <- <-.
  exists fuel', sub. repeat split; auto. simpl. now rewrite String.eqb_refl.
Qed.

Lemma flatten_array_witness :
  exists fuel' sub,
    4 = S (S fuel') /\
    flattenSchema (S fuel') 2 ("posts" ++ "[]") blog = Done (sub, blog) /\
    [("posts[]", 2); ("posts[].title", 1)]
    = (("posts" ++ "[]")%string, 2) :: sub /\
    own ("posts" ++ "[]") [("posts[]", 2); ("posts[].title", 1)] = Some 2.
Proof.
  apply (flatten_array 4 3 2 "posts" blog). - reflexivity. - reflexivity.
Defined.

(** X12: arrays of arrays compose their suffixes: a tower of [n] arrays over
    a schema without children flattens to exactly the [n] paths [p[]],
    [p[][]], ..., each mapped to the element schema found at that depth, and
    nothing is allocated. *)
Theorem flatten_nested_arrays els : forall schema prefix fuel h,
  array_tower h schema els ->
  flattenSchema (List.length els + S (S fuel)) schema prefix h
  = Done (tower_paths prefix els, h).
Proof.
  induction els as [|e els IH]; intros a p fuel h Ht; simpl in Ht.
  - now apply flattenSchema_childless.
  - destruct Ht as [Hn Ht]. simpl List.length.
    replace (S (List.length els) + S (S fuel))
      with (S (S (List.length els + S fuel))) by lia.
    rewrite (flattenSchema_array _ _ _ _ _ Hn).
    replace (S (List.length els + S fuel))
      with (List.length els + S (S fuel)) by lia.
    now rewrite (bind_step _ _ _ _ _ (IH e (p ++ "[]")%string fuel h Ht)).
Qed.

Lemma flatten_nested_arrays_witness :
  flattenSchema 5 3 "" cube
  = Done ([("[]", 2); ("[][]", 1); ("[][][]", 0)], cube).
Proof.
  apply (flatten_nested_arrays [2; 1; 0] 3 "" 0 cube).
  repeat split.
Defined.

(** X13: a tuple schema at prefix [p] has, for every index [i], the path
    [p[i]] (the index in decimal) mapped to the item schema itself; item
    paths never collide with one another or with paths below another item,
    so no item entry is ever a union created by the merge.  Every other
    path lies below one of the item paths. *)
Theorem flatten_tuple fuel schema prefix h items r h' :
  nth_error h schema = Some (ZodTuple items) ->
  flattenSchema fuel schema prefix h = Done (r, h') ->
  (forall i item, nth_error items i = Some item ->
     own (tuple_path prefix i) r = Some item) /\
  (forall key, In key (keys r) ->
     exists i, i < List.length items /\
       (key = tuple_path prefix i \/ below (tuple_path prefix i) key)).
Proof.
  intros Hn H.
  apply (flattenSchema_tuple _ _ _ _ _ _ Hn) in H as (fuel' & -> & H).
  apply (flattenTupleSchema_items _ _ _ _ _ _ _ Hn) in H as (maps & h1 & Hm & H).
  split.
  - intros i item Hi.
    unfold mergeSchemas in H. rewrite mergeSchemas_concat in H.
    apply (reduce_mergeEntry_once _ item _ _ _ _ _ H). left. split; auto.
    apply (entries_values
             (map (fun jx => (tuple_path prefix (fst jx), snd jx))
                  (indexed_from 0 items))).
    + now apply Forall2_map_left.
    + rewrite map_map. simpl.
      rewrite <- (map_map fst (tuple_path prefix)).
      apply NoDup_map_inj; [apply tuple_path_inj|apply indexed_from_NoDup].
    + intros q q' Hq Hq'. rewrite map_map in Hq, Hq'.
      apply in_map_iff in Hq as (? & <- & _), Hq' as (? & <- & _).
      apply tuple_path_not_below.
    + apply in_map_iff. exists (i, item). split; auto.
      apply indexed_from_In. rewrite Nat.sub_0_r. split; [lia|auto].
  - intros key Hk. apply mergeSchemas_keys in H as (_ & Hkeys & _).
    apply Hkeys in Hk as (m & Hin & Hk).
    destruct (Forall2_In_r _ _ _ _ Hm Hin) as ([i x] & Hix & sub & -> & Hb).
    apply indexed_from_In in Hix as [_ Hix]. rewrite Nat.sub_0_r in Hix.
    exists i. split; [apply nth_error_Some; congruence|].
    simpl in Hk. destruct Hk as [<-|Hk]; auto.
    right. rewrite Forall_forall in Hb. auto.
Qed.

Lemma flatten_tuple_witness :
  (forall i item, nth_error [0; 2] i = Some item ->
     own (tuple_path "" i) [("[0]", 0); ("[1]", 2); ("[1].a", 1)]
     = Some item) /\
  (forall key, In key (keys [("[0]", 0); ("[1]", 2); ("[1].a", 1)]) ->
     exists i, i < List.length [0; 2] /\
       (key = tuple_path "" i \/ below (tuple_path "" i) key)).
Proof.
  apply (flatten_tuple 4 3 "" pair [0; 2] _ pair).
  - reflexivity.
  - reflexivity.
Defined.

(** X14: a union schema adds no entry of its own: in a graph without
    dangling references, the paths of a union at a prefix are exactly the
    paths that its branches have, each flattened at that same prefix. *)
Theorem flatten_union_paths fuel schema prefix h options r h' :
  closed h ->
  nth_error h schema = Some (ZodUnion options) ->
  flattenSchema (S (S fuel)) schema prefix h = Done (r, h') ->
  forall key,
    In key (keys r) <->
    exists option m h1,
      In option options /\
      flattenSchema (S fuel) option prefix h = Done (m, h1) /\
      In key (keys m).
Proof.
  intros Hc Hn H key.
  assert (Hopt : forall o, In o options -> o < List.length h).
  { intros o Ho. specialize (Hc _ _ Hn). rewrite Forall_forall in Hc. auto. }
  apply (flattenSchema_union _ _ _ _ _ _ Hn) in H.
  unfold flattenUnionSchema, bind at 1, deref in H. rewrite Hn in H.
  bind_inv H as maps h1 Hm. unfold array_map in Hm.
  apply map_from_trace in Hm as [_ Hm].
  2:{ intros x j h2 y h3 _ Hx. now apply flattenSchema_sound in Hx. }
  apply mergeSchemas_keys in H as (_ & Hkeys & _). rewrite Hkeys.
  assert (Hback : forall o m2 h2 h3, In o options -> extends h h2 ->
            flattenSchema (S fuel) o prefix h2 = Done (m2, h3) ->
            exists m h4, flattenSchema (S fuel) o prefix h = Done (m, h4) /\
                         keys m = keys m2).
  { intros o m2 h2 h3 Ho E Hx.
    destruct (flattenSchema_stable h 0 Hc (S fuel) o prefix (Hopt o Ho)
                h2 h m2 h3 E (extends_refl h) (Nat.le_0_l _) Hx)
      as (m & h4 & Hm' & _ & _ & Ha).
    exists m, h4. split; auto. symmetry. eapply alike_keys; eauto. }
  split.
  - intros (m2 & Hin & Hk).
    destruct (Forall2_In_r _ _ _ _ Hm Hin) as (o & Ho & j & h2 & h3 & E & Hx).
    destruct (Hback o m2 h2 h3 Ho E Hx) as (m & h4 & Hrun & Hkm).
    exists o, m, h4. rewrite Hkm. auto.
  - intros (o & m & h4 & Ho & Hrun & Hk).
    destruct (Forall2_In_l _ _ _ _ Hm Ho) as (m2 & Hin & j & h2 & h3 & E & Hx).
    destruct (Hback o m2 h2 h3 Ho E Hx) as (m' & h5 & Hrun' & Hkm).
    rewrite Hrun in Hrun'. injection Hrun' as <- <-.
    exists m2. rewrite <- Hkm. auto.
Qed.

Lemma flatten_union_paths_witness :
  In "gears" (keys [("type", 7); ("doors", 1); ("gears", 4)]) <->
  exists option m h1,
    In option [2; 5] /\
    flattenSchema 3 option "" vehicles = Done (m, h1) /\
    In "gears" (keys m).
Proof.
  apply (flatten_union_paths 2 6 "" vehicles [2; 5] _
           (vehicles ++ [ZodUnion [0; 3]])).
  - intros a t H.
    do 7 (destruct a as [|a];
          [injection H as <-; repeat constructor; simpl; lia|]).
    destruct a; discriminate.
  - reflexivity.
  - reflexivity.
Defined.

(** X15: [flatten] is repeatable: in a graph without dangling references, a
    second call, made on the heap the first call left, returns the same
    paths in the same order, and the same object wherever the first call
    returned a schema of the caller's graph. *)
Theorem flatten_repeatable fuel schema h r1 h1 :
  closed h -> schema < List.length h ->
  flatten fuel schema h = Done (r1, h1) ->
  exists r2 h2,
    flatten fuel schema h1 = Done (r2, h2) /\
    keys r2 = keys r1 /\
    forall key v, own key r1 = Some v -> v < List.length h ->
      own key r2 = Some v.
Proof.
  intros Hc Hs H.
  pose proof (flattenSchema_sound _ _ _ _ _ _ H) as [E _].
  destruct (flattenSchema_stable h (List.length h1) Hc fuel schema "" Hs
              h h1 r1 h1 (extends_refl h) E (le_n _) H)
    as (r2 & h2 & H2 & _ & _ & Ha).
  exists r2, h2. split; [exact H2|]. split.
  - symmetry. eapply alike_keys; eauto.
  - intros key v Hv Hlt.
    pose proof (alike_own _ _ _ _ _ _ key Ha) as Ho. rewrite Hv in Ho.
    destruct (own key r2) as [v2|]; [|contradiction].
    destruct Ho as [v _|v v2 o1 o2 Hge _ _ _ _]; [reflexivity|lia].
Qed.

Lemma flatten_repeatable_witness :
  exists r2 h2,
    flatten 4 6 (vehicles ++ [ZodUnion [0; 3]]) = Done (r2, h2) /\
    keys r2 = keys [("type", 7); ("doors", 1); ("gears", 4)] /\
    forall key v,
      own key [("type", 7); ("doors", 1); ("gears", 4)] = Some v ->
      v < List.length vehicles -> own key r2 = Some v.
Proof.
  apply (flatten_repeatable 4 6 vehicles).
  - intros a t H.
    do 7 (destruct a as [|a];
          [injection H as <-; repeat constructor; simpl; lia|]).
    destruct a; discriminate.
  - simpl. lia.
  - reflexivity.
Defined.
